(** * Vibescroll feed controller: a shallow embedding of [useTopicFeed] and
      [HighlightedText], and the properties of the feed state machine.

    The embedding follows the TypeScript sources:
    - the hook [useTopicFeed], in its variant with local-storage restore and
      infinite scroll: [saveToStorage], [loadFromStorage], [fetchTopics],
      [loadMoreTopics], [preloadTopics], [exploreConcept],
      [clearConceptExploration], [navigate];
    - the component [HighlightedText]: the [segments] computation;
    - the component [TopicFeed]: the concept overlay is open when
      [!!currentConcept].

    Conventions.  A JavaScript string is a Rocq [string] whose characters are
    the code units U+0000..U+00FF.  JavaScript numbers that hold indices,
    lengths and millisecond timestamps are integers ([Z]).  A [Record<string,
    string>] object is a [gmap] of own properties; reading a property falls
    back to [Object.prototype].  A [Set<string>] is a [gset].  React state is
    threaded explicitly: every [setState (prev => ...)] is a function on
    [TopicFeedState], and the refs and the local storage are fields of a
    [Controller].  A network call is a [Request] in the list an operation
    returns; the answer it receives is an argument of the operation, which
    is then the callback run with nothing happening before its answer.  The
    events of [step] give the callbacks and their answers one by one, in any
    order.  A callback reads the state of the render that created it: the
    answer of [loadMoreTopics] is filtered against the list of topics at the
    call ([loadMoreTopics_interleaved]). *)

From Stdlib Require Import ZArith Lia Ascii String List QArith Qabs Lqa.
From stdpp Require Import base strings gmap list list_numbers.

#[local] Set Warnings "-clear-no-such-hyp".

Local Open Scope string_scope.
Local Open Scope list_scope.
Local Open Scope Z_scope.

(** ** JavaScript strings and values *)

Module JS.

(** [String.prototype.toLowerCase] on code units below 256: the Basic
    Latin capitals and the Latin-1 capitals U+00C0..U+00DE (U+00D7, the
    multiplication sign, is not a letter). *)
Definition lowerChar (c : ascii) : ascii :=
  let n := N_of_ascii c in
  if ((65 <=? n) && (n <=? 90) ||
      (192 <=? n) && (n <=? 222) && negb (n =? 215))%N
  then ascii_of_N (n + 32) else c.

Fixpoint toLowerCase (s : string) : string :=
  match s with
  | EmptyString => EmptyString
  | String c r => String (lowerChar c) (toLowerCase r)
  end.

(** White space and line terminators stripped by [trim], below 256:
    TAB, LF, VT, FF, CR, SPACE and NO-BREAK SPACE. *)
Definition isWhiteSpace (c : ascii) : bool :=
  let n := N_of_ascii c in
  ((9 <=? n) && (n <=? 13) || (n =? 32) || (n =? 160))%N.

Fixpoint trimStart (s : string) : string :=
  match s with
  | EmptyString => EmptyString
  | String c r => if isWhiteSpace c then trimStart r else s
  end.

Fixpoint trimEnd (s : string) : string :=
  match s with
  | EmptyString => EmptyString
  | String c r =>
      match trimEnd r with
      | EmptyString => if isWhiteSpace c then EmptyString else String c EmptyString
      | r' => String c r'
      end
  end.

Definition trim (s : string) : string := trimEnd (trimStart s).

Definition strlen (s : string) : Z := Z.of_nat (String.length s).

(** [String.prototype.slice]: a negative bound counts from the end, both
    bounds are clamped to the string, an empty range gives [""]. *)
Definition clampIndex (len i : Z) : Z :=
  if i <? 0 then Z.max (len + i) 0 else Z.min i len.

Definition slice (s : string) (start fin : Z) : string :=
  let len := strlen s in
  let from := clampIndex len start in
  let to := clampIndex len fin in
  substring (Z.to_nat from) (Z.to_nat (Z.max (to - from) 0)) s.

(** [s.slice(start)]: the end bound defaults to the length. *)
Definition sliceFrom (s : string) (start : Z) : string :=
  slice s start (strlen s).

(** [content.indexOf(text)]: the first position at which [text] occurs,
    [-1] when there is none. *)
Fixpoint indexOfFrom (text content : string) (pos : Z) : Z :=
  if String.prefix text content then pos
  else match content with
       | EmptyString => -1
       | String _ rest => indexOfFrom text rest (pos + 1)
       end.

Definition indexOf (content text : string) : Z := indexOfFrom text content 0.

(** The values a property of the feed state can hold.  [JObject] stands
    for any object or function (always truthy), which is what the
    properties inherited from [Object.prototype] are. *)
Inductive value : Type :=
| JUndefined
| JNull
| JString (s : string)
| JObject.

Definition truthy (v : value) : bool :=
  match v with
  | JUndefined | JNull => false
  | JString s => negb (String.eqb s "")
  | JObject => true
  end.

(** Truthiness of a [string | null]. *)
Definition truthyStr (o : option string) : bool :=
  match o with
  | None => false
  | Some s => negb (String.eqb s "")
  end.

Definition prototypeKeys : list string :=
  [ "constructor"; "__defineGetter__"; "__defineSetter__"; "hasOwnProperty";
    "__lookupGetter__"; "__lookupSetter__"; "isPrototypeOf";
    "propertyIsEnumerable"; "toString"; "valueOf"; "__proto__";
    "toLocaleString" ].

(** [obj[k]] on a plain object: the own property if there is one,
    otherwise what [Object.prototype] has under [k]. *)
Definition get (obj : gmap string value) (k : string) : value :=
  match obj !! k with
  | Some v => v
  | None => if bool_decide (k ∈ prototypeKeys) then JObject else JUndefined
  end.

(** [{ ...obj, [k]: v }] *)
Definition set (obj : gmap string value) (k : string) (v : value)
  : gmap string value := <[k := v]> obj.

End JS.

(** ** Data model ([@/types]) *)

Inductive ViewDepth : Type := Summary | Expanded | Detail.
Inductive SwipeDirection : Type := Up | Down | Left | Right.
Inductive ScrollDirection : Type := ScrollUp | ScrollDown.
Inductive Mode : Type := Live | Demo.

Record TopicHighlight : Type := {
  hl_id : string;
  hl_text : string;
  startIndex : Z;
  endIndex : Z;
}.

Record Topic : Type := {
  topic_id : string;
  topic_title : string;
  topic_summary : string;
  topic_content : string;
  topic_source : string;
  topic_sourceUrl : string;
  topic_timestamp : Z;
  topic_category : string;
  topic_highlights : list TopicHighlight;
}.

Record TopicFeedState : Type := {
  topics : list Topic;
  currentIndex : Z;
  depth : ViewDepth;
  isLoading : bool;
  isLoadingMore : bool;
  error : option string;
  expandedContent : gmap string JS.value;
  detailContent : gmap string JS.value;
  direction : ScrollDirection;
  currentConcept : option string;
  conceptContent : JS.value;
  isExploringConcept : bool;
  conceptCache : gmap string JS.value;
  mode : Mode;
  hasMore : bool;
}.

(** [{ ...prev, field: v }], one updater per field the hook assigns. *)
Definition with_topics (v : list Topic) (s : TopicFeedState) : TopicFeedState :=
  Build_TopicFeedState v (currentIndex s) (depth s) (isLoading s)
    (isLoadingMore s) (error s) (expandedContent s) (detailContent s)
    (direction s) (currentConcept s) (conceptContent s)
    (isExploringConcept s) (conceptCache s) (mode s) (hasMore s).

Definition with_currentIndex (v : Z) (s : TopicFeedState) : TopicFeedState :=
  Build_TopicFeedState (topics s) v (depth s) (isLoading s)
    (isLoadingMore s) (error s) (expandedContent s) (detailContent s)
    (direction s) (currentConcept s) (conceptContent s)
    (isExploringConcept s) (conceptCache s) (mode s) (hasMore s).

Definition with_depth (v : ViewDepth) (s : TopicFeedState) : TopicFeedState :=
  Build_TopicFeedState (topics s) (currentIndex s) v (isLoading s)
    (isLoadingMore s) (error s) (expandedContent s) (detailContent s)
    (direction s) (currentConcept s) (conceptContent s)
    (isExploringConcept s) (conceptCache s) (mode s) (hasMore s).

Definition with_isLoading (v : bool) (s : TopicFeedState) : TopicFeedState :=
  Build_TopicFeedState (topics s) (currentIndex s) (depth s) v
    (isLoadingMore s) (error s) (expandedContent s) (detailContent s)
    (direction s) (currentConcept s) (conceptContent s)
    (isExploringConcept s) (conceptCache s) (mode s) (hasMore s).

Definition with_isLoadingMore (v : bool) (s : TopicFeedState) : TopicFeedState :=
  Build_TopicFeedState (topics s) (currentIndex s) (depth s) (isLoading s)
    v (error s) (expandedContent s) (detailContent s)
    (direction s) (currentConcept s) (conceptContent s)
    (isExploringConcept s) (conceptCache s) (mode s) (hasMore s).

Definition with_error (v : option string) (s : TopicFeedState) : TopicFeedState :=
  Build_TopicFeedState (topics s) (currentIndex s) (depth s) (isLoading s)
    (isLoadingMore s) v (expandedContent s) (detailContent s)
    (direction s) (currentConcept s) (conceptContent s)
    (isExploringConcept s) (conceptCache s) (mode s) (hasMore s).

Definition with_direction (v : ScrollDirection) (s : TopicFeedState) : TopicFeedState :=
  Build_TopicFeedState (topics s) (currentIndex s) (depth s) (isLoading s)
    (isLoadingMore s) (error s) (expandedContent s) (detailContent s)
    v (currentConcept s) (conceptContent s)
    (isExploringConcept s) (conceptCache s) (mode s) (hasMore s).

Definition with_currentConcept (v : option string) (s : TopicFeedState) : TopicFeedState :=
  Build_TopicFeedState (topics s) (currentIndex s) (depth s) (isLoading s)
    (isLoadingMore s) (error s) (expandedContent s) (detailContent s)
    (direction s) v (conceptContent s)
    (isExploringConcept s) (conceptCache s) (mode s) (hasMore s).

Definition with_conceptContent (v : JS.value) (s : TopicFeedState) : TopicFeedState :=
  Build_TopicFeedState (topics s) (currentIndex s) (depth s) (isLoading s)
    (isLoadingMore s) (error s) (expandedContent s) (detailContent s)
    (direction s) (currentConcept s) v
    (isExploringConcept s) (conceptCache s) (mode s) (hasMore s).

Definition with_isExploringConcept (v : bool) (s : TopicFeedState) : TopicFeedState :=
  Build_TopicFeedState (topics s) (currentIndex s) (depth s) (isLoading s)
    (isLoadingMore s) (error s) (expandedContent s) (detailContent s)
    (direction s) (currentConcept s) (conceptContent s)
    v (conceptCache s) (mode s) (hasMore s).

Definition with_conceptCache (v : gmap string JS.value) (s : TopicFeedState) : TopicFeedState :=
  Build_TopicFeedState (topics s) (currentIndex s) (depth s) (isLoading s)
    (isLoadingMore s) (error s) (expandedContent s) (detailContent s)
    (direction s) (currentConcept s) (conceptContent s)
    (isExploringConcept s) v (mode s) (hasMore s).

Definition with_mode (v : Mode) (s : TopicFeedState) : TopicFeedState :=
  Build_TopicFeedState (topics s) (currentIndex s) (depth s) (isLoading s)
    (isLoadingMore s) (error s) (expandedContent s) (detailContent s)
    (direction s) (currentConcept s) (conceptContent s)
    (isExploringConcept s) (conceptCache s) v (hasMore s).

Definition with_hasMore (v : bool) (s : TopicFeedState) : TopicFeedState :=
  Build_TopicFeedState (topics s) (currentIndex s) (depth s) (isLoading s)
    (isLoadingMore s) (error s) (expandedContent s) (detailContent s)
    (direction s) (currentConcept s) (conceptContent s)
    (isExploringConcept s) (conceptCache s) (mode s) v.

(** The argument of [useState]. *)
Definition initialState : TopicFeedState := {|
  topics := [];
  currentIndex := 0;
  depth := Summary;
  isLoading := true;
  isLoadingMore := false;
  error := None;
  expandedContent := ∅;
  detailContent := ∅;
  direction := ScrollDown;
  currentConcept := None;
  conceptContent := JS.JNull;
  isExploringConcept := false;
  conceptCache := ∅;
  mode := Demo;
  hasMore := true;
|}.

(** [topics[i]]: [undefined] ([None]) outside [0 .. length - 1]. *)
Definition at_index {A : Type} (l : list A) (i : Z) : option A :=
  if i <? 0 then None else l !! Z.to_nat i.

Definition len {A : Type} (l : list A) : Z := Z.of_nat (length l).

(** [state.topics[state.currentIndex]] *)
Definition currentTopic (s : TopicFeedState) : option Topic :=
  at_index (topics s) (currentIndex s).

(** ** Local storage

    The hook only touches the key [STORAGE_KEY].  What is stored under it is
    either the JSON of [{ topics, currentIndex, timestamp }], which is all
    that [saveToStorage] writes, or text that [JSON.parse] rejects; JSON of
    another shape is not covered.  [storage_denied] says that the storage
    object throws on every access (storage disabled), [storage_full] that
    [setItem] throws (quota exceeded). *)

Definition STORAGE_KEY : string := "vibescroll_feed_state".

Record SavedFeed : Type := {
  saved_topics : list Topic;
  saved_currentIndex : Z;
  saved_timestamp : Z;
}.

Inductive StoredItem : Type :=
| Unparsable (raw : string)
| Parsed (data : SavedFeed).

Record Storage : Type := {
  storage_item : option StoredItem;
  storage_denied : bool;
  storage_full : bool;
}.

Definition setItem (v : StoredItem) (s : Storage) : Storage :=
  {| storage_item := Some v; storage_denied := storage_denied s;
     storage_full := storage_full s |}.

Definition removeItem (s : Storage) : Storage :=
  {| storage_item := None; storage_denied := storage_denied s;
     storage_full := storage_full s |}.

(** [saveToStorage(topics, currentIndex)]; [now] is [Date.now()].  An
    exception of the storage is caught and logged. *)
Definition saveToStorage (tps : list Topic) (idx : Z) (now : Z) (s : Storage)
  : Storage :=
  if storage_denied s || storage_full s then s
  else setItem (Parsed {| saved_topics := tps; saved_currentIndex := idx;
                          saved_timestamp := now |}) s.

Definition oneHour : Z := 60 * 60 * 1000.

(** [loadFromStorage()]: the restored pair, or [None] for the [null] result,
    together with the storage it leaves. *)
Definition loadFromStorage (now : Z) (s : Storage)
  : option (list Topic * Z) * Storage :=
  if storage_denied s then (None, s)
  else match storage_item s with
       | None => (None, s)
       | Some (Unparsable _) => (None, s)
       | Some (Parsed data) =>
           if now - saved_timestamp data >? oneHour
           then (None, removeItem s)
           else (Some (saved_topics data, saved_currentIndex data), s)
       end.

(** ** The remote service *)

Inductive Request : Type :=
| GetTopics
| GetExpand (topicId title content : string)
| PostExplore (concept : string) (topicId topicContext : option string).

(** Answer to [fetch("/api/topics?count=5")] followed by [response.json()]:
    [TopicsFailed msg] is a rejected fetch, a response that is not [ok] or a
    body that is not JSON, with the message of the error thrown;
    [hasMoreField] is the [hasMore] member of the body when it is there. *)
Inductive TopicsResponse : Type :=
| TopicsFailed (message : string)
| TopicsOk (batch : list Topic) (modeField : option Mode)
    (hasMoreField : option bool).

(** Answer to a [fetch("/api/explore", ...)]: [body] is the [content] member
    of the JSON body ([JUndefined] when the body has none), [None] when the
    body is not JSON. *)
Inductive ExploreResponse : Type :=
| NetworkError
| Responded (ok : bool) (body : option JS.value).

(** ** The controller: React state, refs and local storage *)

Record Controller : Type := {
  state : TopicFeedState;
  preloadedRef : gset string;
  conceptPreloadRef : gset string;
  initializedRef : bool;
  localStorage : Storage;
}.

Definition setState (f : TopicFeedState -> TopicFeedState) (c : Controller)
  : Controller :=
  {| state := f (state c); preloadedRef := preloadedRef c;
     conceptPreloadRef := conceptPreloadRef c;
     initializedRef := initializedRef c; localStorage := localStorage c |}.

Definition with_preloadedRef (v : gset string) (c : Controller) : Controller :=
  {| state := state c; preloadedRef := v;
     conceptPreloadRef := conceptPreloadRef c;
     initializedRef := initializedRef c; localStorage := localStorage c |}.

Definition with_conceptPreloadRef (v : gset string) (c : Controller) : Controller :=
  {| state := state c; preloadedRef := preloadedRef c;
     conceptPreloadRef := v;
     initializedRef := initializedRef c; localStorage := localStorage c |}.

Definition with_initializedRef (v : bool) (c : Controller) : Controller :=
  {| state := state c; preloadedRef := preloadedRef c;
     conceptPreloadRef := conceptPreloadRef c;
     initializedRef := v; localStorage := localStorage c |}.

Definition with_localStorage (v : Storage) (c : Controller) : Controller :=
  {| state := state c; preloadedRef := preloadedRef c;
     conceptPreloadRef := conceptPreloadRef c;
     initializedRef := initializedRef c; localStorage := v |}.

(** The controller right after the hook is mounted. *)
Definition mount (s : Storage) : Controller :=
  {| state := initialState; preloadedRef := ∅; conceptPreloadRef := ∅;
     initializedRef := false; localStorage := s |}.

(** ** [fetchTopics(forceRefresh)]

    [now] is the clock when the storage is read, [resp] the answer of the
    service if it is asked, [now'] the clock when the batch is saved. *)
Definition fetchTopics (forceRefresh : bool) (now : Z) (resp : TopicsResponse)
    (now' : Z) (c : Controller) : Controller * list Request :=
  let fetch (c : Controller) : Controller * list Request :=
    let c := with_initializedRef true c in
    let c := setState (fun prev => with_error None (with_isLoading true prev)) c in
    match resp with
    | TopicsOk batch modeField hasMoreField =>
        let c := setState (fun prev =>
                   with_isLoading false
                     (with_hasMore
                        (match hasMoreField with Some false => false | _ => true end)
                        (with_mode (default Demo modeField)
                           (with_currentIndex 0 (with_topics batch prev))))) c in
        (with_localStorage (saveToStorage batch 0 now' (localStorage c)) c,
         [GetTopics])
    | TopicsFailed message =>
        (setState (fun prev => with_error (Some message)
                                 (with_isLoading false prev)) c,
         [GetTopics])
    end in
  if negb forceRefresh && negb (initializedRef c) then
    let '(saved, sto) := loadFromStorage now (localStorage c) in
    let c := with_localStorage sto c in
    match saved with
    | Some (tps, idx) =>
        if len tps >? 0 then
          let c := setState (fun prev =>
                     with_mode Live
                       (with_isLoading false
                          (with_currentIndex idx (with_topics tps prev)))) c in
          (with_initializedRef true c, [])
        else fetch c
    | None => fetch c
    end
  else fetch c.

(** ** [loadMoreTopics()]

    [titleKey] is [t.title.toLowerCase().slice(0, 30)]. *)
Definition titleKey (t : Topic) : string :=
  JS.slice (JS.toLowerCase (topic_title t)) 0 30.

(** The [filter] callback: [existing] is the list both sets are built from. *)
Definition isNewTopic (existing : list Topic) (t : Topic) : bool :=
  let existingIds : gset string := list_to_set (topic_id <$> existing) in
  let existingTitles : gset string := list_to_set (titleKey <$> existing) in
  if bool_decide (topic_id t ∈ existingIds) then false
  else if bool_decide (titleKey t ∈ existingTitles) then false
  else true.

(** What happens once the answer is in: [snapshot] is the [state.topics] the
    callback closed over, the controller holds the latest state. *)
Definition loadMoreTopics_resolve (snapshot : list Topic)
    (resp : TopicsResponse) (now : Z) (c : Controller) : Controller :=
  match resp with
  | TopicsOk batch _ _ =>
      let newTopics := filter (fun t => isNewTopic snapshot t = true) batch in
      let prev := state c in
      let updatedTopics := topics prev ++ newTopics in
      let c := with_localStorage
                 (saveToStorage updatedTopics (currentIndex prev) now
                    (localStorage c)) c in
      setState (fun prev => with_isLoadingMore false
                              (with_hasMore true
                                 (with_topics updatedTopics prev))) c
  | TopicsFailed _ => setState (with_isLoadingMore false) c
  end.

(** ** [preloadTopics()] *)

(** The request [fetch(buildExpandUrl(topic))] sends. *)
Definition buildExpandUrl (t : Topic) : Request :=
  GetExpand (topic_id t) (topic_title t) (topic_content t).

(** [`${currentTopic.id}:${h.text}`] *)
Definition conceptPreloadKey (t : Topic) (h : TopicHighlight) : string :=
  String.append (topic_id t) (String.append ":" (hl_text h)).

(** The body of [currentTopic.highlights.forEach]: the accumulator is
    [conceptPreloadRef.current] and the requests sent so far. *)
Definition preloadHighlight (t : Topic) (acc : gset string * list Request)
    (h : TopicHighlight) : gset string * list Request :=
  let '(inflight, reqs) := acc in
  let cacheKey := conceptPreloadKey t h in
  if bool_decide (cacheKey ∈ inflight) then acc
  else ({[cacheKey]} ∪ inflight,
        reqs ++ [PostExplore (hl_text h) (Some (topic_id t))
                   (Some (topic_content t))]).

(** The [.then(res => res.json()).then(data => ...).catch(() => {})] chain
    of one speculative request: [response.ok] is not looked at. *)
Definition preloadConcept_resolve (h : TopicHighlight) (resp : ExploreResponse)
    (c : Controller) : Controller :=
  match resp with
  | Responded _ (Some content) =>
      setState (fun prev =>
        with_conceptCache
          (JS.set (conceptCache prev) (JS.toLowerCase (hl_text h)) content)
          prev) c
  | Responded _ None => c
  | NetworkError => c
  end.

(** The body of the [for] loop over the upcoming topics: the accumulator is
    [preloadedRef.current] and the requests sent so far. *)
Definition preloadUpcoming (tps : list Topic) (acc : gset string * list Request)
    (i : Z) : gset string * list Request :=
  let '(requested, reqs) := acc in
  match at_index tps i with
  | Some topic =>
      if bool_decide (topic_id topic ∈ requested) then acc
      else ({[topic_id topic]} ∪ requested, reqs ++ [buildExpandUrl topic])
  | None => acc
  end.

(** The first [if] of [preloadTopics]: the deep dive and the concepts of the
    current topic. *)
Definition preloadCurrent (c : Controller) : Controller * list Request :=
  match currentTopic (state c) with
  | Some currentTopic =>
      if bool_decide (topic_id currentTopic ∈ preloadedRef c) then (c, [])
      else
        let c := with_preloadedRef ({[topic_id currentTopic]} ∪ preloadedRef c) c in
        let '(inflight, reqs) :=
          foldl (preloadHighlight currentTopic)
            (conceptPreloadRef c, [buildExpandUrl currentTopic])
            (topic_highlights currentTopic) in
        (with_conceptPreloadRef inflight c, reqs)
  | None => (c, [])
  end.

Definition startIdx (s : TopicFeedState) : Z := currentIndex s + 1.

Definition endIdx (preloadCount : Z) (s : TopicFeedState) : Z :=
  Z.min (currentIndex s + preloadCount + 1) (len (topics s)).

(** The indices [for (let i = startIdx; i < endIdx; i++)] runs over. *)
Definition upcomingIndices (preloadCount : Z) (s : TopicFeedState) : list Z :=
  seqZ (startIdx s) (endIdx preloadCount s - startIdx s).

Definition preloadTopics (preloadCount : Z) (c : Controller)
  : Controller * list Request :=
  let '(c1, reqs) := preloadCurrent c in
  let '(requested, reqs) :=
    foldl (preloadUpcoming (topics (state c))) (preloadedRef c1, reqs)
      (upcomingIndices preloadCount (state c)) in
  (with_preloadedRef requested c1, reqs).

(** A session as the prefetch engine sees it: the effect that calls
    [preloadTopics] runs once for each state of the list (after a move, a
    restore or a new batch), while the refs live on. *)
Fixpoint preloadSession (preloadCount : Z) (sts : list TopicFeedState)
    (c : Controller) : Controller * list Request :=
  match sts with
  | [] => (c, [])
  | st :: rest =>
      let '(c1, reqs) := preloadTopics preloadCount (setState (fun _ => st) c) in
      let '(c2, reqs') := preloadSession preloadCount rest c1 in
      (c2, reqs ++ reqs')
  end.

(** The topic ids of the deep-dive requests of a log. *)
Definition expandIds (reqs : list Request) : list string :=
  omap (fun r => match r with GetExpand i _ _ => Some i | _ => None end) reqs.

(** ** [exploreConcept(concept)] *)

Definition normalizeConcept (concept : string) : string :=
  JS.trim (JS.toLowerCase concept).

Definition dquote : string := String (ascii_of_N 34) EmptyString.

(** [`Unable to research "${concept}" at this time. Please try again.`] *)
Definition fallbackMessage (concept : string) : string :=
  String.append "Unable to research "
    (String.append dquote
       (String.append concept
          (String.append dquote " at this time. Please try again."))).

(** The synchronous part: the cache test and the first [setState]; the
    request is the one the [try] block sends on a miss. *)
Definition exploreConcept_start (concept : string) (c : Controller)
  : Controller * option Request :=
  let normalizedConcept := normalizeConcept concept in
  let currentTopic := currentTopic (state c) in
  if JS.truthy (JS.get (conceptCache (state c)) normalizedConcept) then
    (setState (fun prev =>
       with_isExploringConcept false
         (with_conceptContent (JS.get (conceptCache prev) normalizedConcept)
            (with_currentConcept (Some concept) prev))) c,
     None)
  else
    (setState (fun prev =>
       with_isExploringConcept true
         (with_conceptContent JS.JNull
            (with_currentConcept (Some concept) prev))) c,
     Some (PostExplore concept (topic_id <$> currentTopic)
             (topic_content <$> currentTopic))).

(** The rest of the [try] block and the [catch], once the answer is in. *)
Definition exploreConcept_resolve (concept : string) (resp : ExploreResponse)
    (c : Controller) : Controller :=
  let normalizedConcept := normalizeConcept concept in
  match resp with
  | Responded true (Some content) =>
      setState (fun prev =>
        with_conceptCache (JS.set (conceptCache prev) normalizedConcept content)
          (with_isExploringConcept false
             (with_conceptContent content prev))) c
  | _ =>
      setState (fun prev =>
        with_isExploringConcept false
          (with_conceptContent (JS.JString (fallbackMessage concept)) prev)) c
  end.

(** A whole call, with the answer [resp] the service gives if it is asked. *)
Definition exploreConcept (concept : string) (resp : ExploreResponse)
    (c : Controller) : Controller * list Request :=
  match exploreConcept_start concept c with
  | (c1, None) => (c1, [])
  | (c1, Some rq) => (exploreConcept_resolve concept resp c1, [rq])
  end.

(** ** [clearConceptExploration()] *)
Definition clearConceptExploration (c : Controller) : Controller :=
  setState (fun prev =>
    with_isExploringConcept false
      (with_conceptContent JS.JNull (with_currentConcept None prev))) c.

(** ** [navigate(direction)]; [now] is the clock [saveToStorage] reads. *)
Definition navigate (dir : SwipeDirection) (now : Z) (c : Controller)
  : Controller :=
  if JS.truthyStr (currentConcept (state c))
     && match dir with Left => true | _ => false end
  then clearConceptExploration c
  else
    let prev := state c in
    match dir with
    | Down =>
        if currentIndex prev <? len (topics prev) - 1 then
          let newIndex := currentIndex prev + 1 in
          let c := with_localStorage
                     (saveToStorage (topics prev) newIndex now (localStorage c)) c in
          setState (fun prev =>
            with_conceptContent JS.JNull
              (with_currentConcept None
                 (with_direction ScrollDown
                    (with_depth Summary (with_currentIndex newIndex prev))))) c
        else c
    | Up =>
        if currentIndex prev >? 0 then
          let newIndex := currentIndex prev - 1 in
          let c := with_localStorage
                     (saveToStorage (topics prev) newIndex now (localStorage c)) c in
          setState (fun prev =>
            with_conceptContent JS.JNull
              (with_currentConcept None
                 (with_direction ScrollUp
                    (with_depth Summary (with_currentIndex newIndex prev))))) c
        else c
    | Right =>
        match depth prev with
        | Summary => setState (with_depth Expanded) c
        | Expanded => setState (with_depth Detail) c
        | Detail => c
        end
    | Left =>
        match depth prev with
        | Detail => setState (with_depth Expanded) c
        | Expanded => setState (with_depth Summary) c
        | Summary => c
        end
    end.

(** [isOpen={!!currentConcept}] of the concept overlay in [TopicFeed]. *)
Definition conceptOverlayOpen (s : TopicFeedState) : bool :=
  JS.truthyStr (currentConcept s).

(** ** [HighlightedText]: the [segments] memo *)

Record TextSegment : Type := {
  seg_text : string;
  isHighlight : bool;
  seg_highlight : option TopicHighlight;
}.

Definition plainSegment (text : string) : TextSegment :=
  {| seg_text := text; isHighlight := false; seg_highlight := None |}.

Definition highlightSegment (text : string) (h : TopicHighlight) : TextSegment :=
  {| seg_text := text; isHighlight := true; seg_highlight := Some h |}.

(** [[...highlights].sort((a, b) => a.startIndex - b.startIndex)]: the sort
    of an array is stable, so it is the insertion sort on [startIndex]. *)
Fixpoint insertByStart (h : TopicHighlight) (l : list TopicHighlight)
  : list TopicHighlight :=
  match l with
  | [] => [h]
  | y :: r => if startIndex h <=? startIndex y then h :: l
              else y :: insertByStart h r
  end.

Definition sortedHighlights (l : list TopicHighlight) : list TopicHighlight :=
  foldr insertByStart [] l.

(** The offsets the loop body works with, [None] when it [continue]s. *)
Definition resolveOffsets (content : string) (h : TopicHighlight)
  : option (Z * Z) :=
  if (startIndex h =? 0) && (endIndex h =? 0) then
    let foundIdx := JS.indexOf content (hl_text h) in
    if foundIdx >=? 0 then Some (foundIdx, foundIdx + JS.strlen (hl_text h))
    else None
  else Some (startIndex h, endIndex h).

(** One turn of [for (const highlight of sortedHighlights)]: the accumulator
    is [result] and [lastIndex]. *)
Definition segmentStep (content : string) (acc : list TextSegment * Z)
    (h : TopicHighlight) : list TextSegment * Z :=
  let '(result, lastIndex) := acc in
  match resolveOffsets content h with
  | None => acc
  | Some (startIdx, endIdx) =>
      let result :=
        if startIdx >? lastIndex
        then result ++ [plainSegment (JS.slice content lastIndex startIdx)]
        else result in
      (result ++ [highlightSegment (JS.slice content startIdx endIdx) h], endIdx)
  end.

Definition segments (content : string) (highlights : list TopicHighlight)
  : list TextSegment :=
  match highlights with
  | [] => [plainSegment content]
  | _ =>
      let '(result, lastIndex) :=
        foldl (segmentStep content) ([], 0) (sortedHighlights highlights) in
      if lastIndex <? JS.strlen content
      then result ++ [plainSegment (JS.sliceFrom content lastIndex)]
      else result
  end.

(** ** Predicates the statements below use *)

(** The answers on which [exploreConcept] leaves its [try] block through
    [catch]: a rejected [fetch], a response that is not [ok], a body that is
    not JSON. *)
Definition requestFailed (resp : ExploreResponse) : bool :=
  match resp with
  | Responded true (Some _) => false
  | _ => true
  end.

(** The message as the specification words it, without the closing
    sentence of the source's template. *)
Definition specFallbackMessage (concept : string) : string :=
  String.append "Unable to research "
    (String.append dquote
       (String.append concept (String.append dquote " at this time."))).

(** [text] occurs in [content] at position [i]. *)
Definition occursAt (content text : string) (i : Z) : Prop :=
  0 <= i /\ substring (Z.to_nat i) (String.length text) content = text.

(** [i] is the position of the first occurrence of [text] in [content]. *)
Definition firstOccurrence (content text : string) (i : Z) : Prop :=
  occursAt content text i /\ forall j, 0 <= j < i -> ~ occursAt content text j.

(** ** Sample data *)

Definition sampleHighlight (i text : string) : TopicHighlight :=
  {| hl_id := i; hl_text := text; startIndex := 0; endIndex := 0 |}.

Definition sampleTopic (i title content : string) (hs : list TopicHighlight)
  : Topic :=
  {| topic_id := i; topic_title := title; topic_summary := title;
     topic_content := content; topic_source := "demo"; topic_sourceUrl := "";
     topic_timestamp := 0; topic_category := "science";
     topic_highlights := hs |}.

Definition emptyStorage : Storage :=
  {| storage_item := None; storage_denied := false; storage_full := false |}.

Definition quantumContent : string :=
  "Scientists discovered a new quantum error correction method.".

Definition quantumHighlight : TopicHighlight :=
  sampleHighlight "h1-1" "quantum error correction".

Definition topicA : Topic :=
  sampleTopic "topic-1" "Quantum Computing Milestone" quantumContent
    [quantumHighlight].

Definition topicB : Topic :=
  sampleTopic "topic-2" "Gut Bacteria and Mood" "Researchers mapped gut bacteria." [].

Definition topicC : Topic :=
  sampleTopic "topic-3" "Central Banks Diverge" "Rates moved apart." [].

(** A feed of three topics, freshly loaded, at the first topic. *)
Definition feed3 : Controller :=
  setState (fun prev => with_isLoading false (with_topics [topicA; topicB; topicC] prev))
    (mount emptyStorage).

(** A controller on which the concept is the empty string: what
    [exploreConcept("")] leaves behind, here at depth [Detail]. *)
Definition emptyConceptAtDetail : Controller :=
  setState (with_depth Detail) (fst (exploreConcept_start "" feed3)).

(** The first topic with an exploration of "gut bacteria" under way: the
    request has been sent and not yet answered. *)
Definition exploringAtFirst : Controller :=
  fst (exploreConcept_start "gut bacteria" feed3).

(** The cache after a speculative request for the highlight of [topicA] was
    answered with an error body, which has no [content] member. *)
Definition afterErrorBodyPrefetch : Controller :=
  preloadConcept_resolve quantumHighlight
    (Responded false (Some JS.JUndefined)) feed3.

(** The already-requested set [R] and the log of requests agree, from a set
    [R0] on: the deep dives of the log are for distinct topic ids, none of
    them in [R0], and [R] is [R0] together with these ids. *)
Definition tracked (R0 R : gset string) (log : list Request) : Prop :=
  NoDup (expandIds log)
  /\ R = R0 ∪ list_to_set (expandIds log)
  /\ forall i, i ∈ expandIds log -> i ∉ R0.

(** A topic whose highlight text ends with a space, and the feed showing
    it. *)
Definition paddedHighlight : TopicHighlight :=
  sampleHighlight "h4-1" "Surface Codes ".

Definition topicPadded : Topic :=
  sampleTopic "topic-4" "Error Correction" "Surface Codes protect qubits."
    [paddedHighlight].

Definition feedPadded : Controller :=
  setState (fun prev => with_isLoading false (with_topics [topicPadded] prev))
    (mount emptyStorage).

(** [feedPadded] after [preloadTopics] ran and its speculative request for
    the highlight was answered. *)
Definition feedPaddedWarm : Controller :=
  preloadConcept_resolve paddedHighlight
    (Responded true (Some (JS.JString "Codes on a lattice of qubits.")))
    (fst (preloadTopics 2 feedPadded)).

(** The topics of an answer, none when the request failed. *)
Definition batchOf (resp : TopicsResponse) : list Topic :=
  match resp with
  | TopicsOk batch _ _ => batch
  | TopicsFailed _ => []
  end.

(** Two topics of one batch under the same id, with unrelated titles. *)
Definition topicD : Topic :=
  sampleTopic "topic-9" "Designer Proteins" "Proteins made to order." [].

Definition topicD' : Topic :=
  sampleTopic "topic-9" "Libraries as Third Places" "Visitors are back." [].

Definition topicE : Topic :=
  sampleTopic "topic-5" "Libraries Reinvented" "Visitors are back." [].

(** A stored feed that is one minute old when the clock shows [100000]. *)
Definition freshEntry (tps : list Topic) : Storage :=
  {| storage_item :=
       Some (Parsed {| saved_topics := tps; saved_currentIndex := 1;
                       saved_timestamp := 40000 |});
     storage_denied := false; storage_full := false |}.

(** [n] presses of one arrow key in a row. *)
Definition presses (dir : SwipeDirection) (now : Z) (n : nat) (c : Controller)
  : Controller :=
  Nat.iter n (navigate dir now) c.

(** * The rest of the hook and its callers *)

Definition with_expandedContent (v : gmap string JS.value) (s : TopicFeedState)
  : TopicFeedState :=
  Build_TopicFeedState (topics s) (currentIndex s) (depth s) (isLoading s)
    (isLoadingMore s) (error s) v (detailContent s)
    (direction s) (currentConcept s) (conceptContent s)
    (isExploringConcept s) (conceptCache s) (mode s) (hasMore s).

(** ** [expandTopic(topicId)]

    The synchronous part: nothing is sent when [expandedContent] has a
    truthy entry for the id or when no topic has the id;
    [state.topics.find] takes the first topic with the id. *)
Definition expandTopic_start (topicId : string) (c : Controller)
  : option Request :=
  if JS.truthy (JS.get (expandedContent (state c)) topicId) then None
  else match List.find (fun t => String.eqb (topic_id t) topicId)
               (topics (state c)) with
       | Some topic => Some (buildExpandUrl topic)
       | None => None
       end.

(** The rest of the [try] block; the [catch] only logs.  The answer has the
    shape of the answers of [/api/explore]. *)
Definition expandTopic_resolve (topicId : string) (resp : ExploreResponse)
    (c : Controller) : Controller :=
  match resp with
  | Responded true (Some content) =>
      setState (fun prev =>
        with_expandedContent (JS.set (expandedContent prev) topicId content)
          prev) c
  | _ => c
  end.

Definition expandTopic (topicId : string) (resp : ExploreResponse)
    (c : Controller) : Controller * list Request :=
  match expandTopic_start topicId c with
  | None => (c, [])
  | Some rq => (expandTopic_resolve topicId resp c, [rq])
  end.

(** [resetDepth()] *)
Definition resetDepth (c : Controller) : Controller :=
  setState (with_depth Summary) c.

(** [handleHighlightClick(highlight)] *)
Definition handleHighlightClick (h : TopicHighlight) (resp : ExploreResponse)
    (c : Controller) : Controller * list Request :=
  exploreConcept (hl_text h) resp c.

(** The [expandedContent] member of what the hook returns. *)
Definition returnedExpandedContent (s : TopicFeedState) : JS.value :=
  match currentTopic s with
  | Some t => JS.get (expandedContent s) (topic_id t)
  | None => JS.JUndefined
  end.

(** ** The effects of the hook *)

(** The condition of the infinite-scroll effect, with its [threshold = 3]. *)
Definition shouldLoadMore (s : TopicFeedState) : bool :=
  (len (topics s) >? 0) && (currentIndex s >=? len (topics s) - 3)
  && hasMore s && negb (isLoadingMore s).

(** "Auto-expand when depth changes". *)
Definition autoExpand (resp : ExploreResponse) (c : Controller)
  : Controller * list Request :=
  match currentTopic (state c) with
  | Some t =>
      match depth (state c) with
      | Expanded => expandTopic (topic_id t) resp c
      | _ => (c, [])
      end
  | None => (c, [])
  end.

(** "Preload when current index changes". *)
Definition preloadEffect (preloadCount : Z) (c : Controller)
  : Controller * list Request :=
  if len (topics (state c)) >? 0 then preloadTopics preloadCount c else (c, []).

(** ** [fetchTopics] in two steps: up to the [await], and after it *)

Definition fetchTopics_begin (c : Controller) : Controller :=
  setState (fun prev => with_error None (with_isLoading true prev))
    (with_initializedRef true c).

Definition fetchTopics_resolve (resp : TopicsResponse) (now' : Z)
    (c : Controller) : Controller :=
  match resp with
  | TopicsOk batch modeField hasMoreField =>
      let c := setState (fun prev =>
                 with_isLoading false
                   (with_hasMore
                      (match hasMoreField with Some false => false | _ => true end)
                      (with_mode (default Demo modeField)
                         (with_currentIndex 0 (with_topics batch prev))))) c in
      with_localStorage (saveToStorage batch 0 now' (localStorage c)) c
  | TopicsFailed message =>
      setState (fun prev => with_error (Some message)
                              (with_isLoading false prev)) c
  end.

(** ** What can happen to a mounted controller

    One event for each callback of the hook and for each answer that comes
    in later; an answer may come in at any time, after any other event, and
    [EvMoreTopics] carries the list of topics its callback closed over. *)
Inductive Event : Type :=
| EvFetchTopics (forceRefresh : bool) (now : Z)
| EvTopics (resp : TopicsResponse) (now : Z)
| EvLoadMore
| EvMoreTopics (snapshot : list Topic) (resp : TopicsResponse) (now : Z)
| EvPreload (preloadCount : Z)
| EvPreloaded (h : TopicHighlight) (resp : ExploreResponse)
| EvExplore (concept : string)
| EvExplored (concept : string) (resp : ExploreResponse)
| EvClear
| EvNavigate (dir : SwipeDirection) (now : Z)
| EvExpanded (topicId : string) (resp : ExploreResponse)
| EvResetDepth.

(** The first half of [fetchTopics]: a restore ends the call, otherwise the
    request is under way. *)
Definition fetchTopics_first (forceRefresh : bool) (now : Z) (c : Controller)
  : Controller :=
  if negb forceRefresh && negb (initializedRef c) then
    let '(saved, sto) := loadFromStorage now (localStorage c) in
    let c := with_localStorage sto c in
    match saved with
    | Some (tps, idx) =>
        if len tps >? 0 then
          with_initializedRef true
            (setState (fun prev =>
               with_mode Live
                 (with_isLoading false
                    (with_currentIndex idx (with_topics tps prev)))) c)
        else fetchTopics_begin c
    | None => fetchTopics_begin c
    end
  else fetchTopics_begin c.

Definition step (e : Event) (c : Controller) : Controller :=
  match e with
  | EvFetchTopics forceRefresh now => fetchTopics_first forceRefresh now c
  | EvTopics resp now => fetchTopics_resolve resp now c
  | EvLoadMore =>
      if isLoadingMore (state c) then c
      else setState (with_isLoadingMore true) c
  | EvMoreTopics snapshot resp now => loadMoreTopics_resolve snapshot resp now c
  | EvPreload preloadCount => fst (preloadEffect preloadCount c)
  | EvPreloaded h resp => preloadConcept_resolve h resp c
  | EvExplore concept => fst (exploreConcept_start concept c)
  | EvExplored concept resp => exploreConcept_resolve concept resp c
  | EvClear => clearConceptExploration c
  | EvNavigate dir now => navigate dir now c
  | EvExpanded topicId resp => expandTopic_resolve topicId resp c
  | EvResetDepth => resetDepth c
  end.

(** The events of a list, first to last. *)
Definition run (events : list Event) (c : Controller) : Controller :=
  foldl (fun c e => step e c) c events.

(** ** [loadMoreTopics()], from the call to its answer

    The callback tests [state.isLoadingMore], sets the flag and sends the
    request; the answer comes in after the events [between].  The batch is
    filtered against [state.topics] of the state the callback closed over,
    the list at the call, and is appended to [prev.topics], the list at the
    answer. *)
Definition loadMoreTopics_interleaved (between : list Event)
    (resp : TopicsResponse) (now : Z) (c : Controller)
  : Controller * list Request :=
  if isLoadingMore (state c) then (run between c, [])
  else
    let snapshot := topics (state c) in
    let c := setState (with_isLoadingMore true) c in
    (loadMoreTopics_resolve snapshot resp now (run between c), [GetTopics]).

(** The call whose answer comes in before anything else happens. *)
Definition loadMoreTopics (resp : TopicsResponse) (now : Z) (c : Controller)
  : Controller * list Request :=
  loadMoreTopics_interleaved [] resp now c.

(** A feed of three topics as the first [fetchTopics] of a mounted
    controller leaves it. *)
Definition fetchedFeed : Controller :=
  fst (fetchTopics false 0
         (TopicsOk [topicA; topicB; topicC] (Some Live) (Some true)) 0
         (mount emptyStorage)).

(** [refetch()] and its answer, a list of one topic. *)
Definition refetchAnswered : list Event :=
  [EvFetchTopics false 1; EvTopics (TopicsOk [topicD] (Some Live) (Some true)) 2].

(** The position is inside the list, or is [0] on an empty list. *)
Definition indexInRange (tps : list Topic) (idx : Z) : Prop :=
  0 <= idx < Z.max 1 (len tps).

(** What the storage holds can be restored to a position inside its list. *)
Definition storageInRange (s : Storage) : Prop :=
  match storage_item s with
  | Some (Parsed d) => indexInRange (saved_topics d) (saved_currentIndex d)
  | _ => True
  end.

(** The invariant of the feed position: the index and what is stored. *)
Definition positionOk (c : Controller) : Prop :=
  indexInRange (topics (state c)) (currentIndex (state c))
  /\ storageInRange (localStorage c).

(** The key of the concept cache an event writes, if it writes one: only the
    answers to a speculative request and to [exploreConcept] do. *)
Definition cacheKeyWritten (e : Event) : option string :=
  match e with
  | EvPreloaded h (Responded _ (Some _)) => Some (JS.toLowerCase (hl_text h))
  | EvExplored concept (Responded true (Some _)) => Some (normalizeConcept concept)
  | _ => None
  end.

(** * Input adapters *)

(** ** [useSwipeGestures]: [onDragEnd]

    A movement is a pair of finite numbers, here rationals; [None] is the
    [return] without a call of [onSwipe]. *)
Definition Qltb (x y : Q) : bool := negb (Qle_bool y x).

Definition onDragEnd (enabled : bool) (threshold mx my : Q)
  : option SwipeDirection :=
  if negb enabled then None
  else
    let absX := Qabs mx in
    let absY := Qabs my in
    if Qltb absX threshold && Qltb absY threshold then None
    else if Qltb absY absX
         then Some (if Qltb 0 mx then Right else Left)
         else Some (if Qltb 0 my then Down else Up).

Definition opposite (d : SwipeDirection) : SwipeDirection :=
  match d with Up => Down | Down => Up | Left => Right | Right => Left end.

(** ** [useTextSelection]: [handleSelectionChange]

    [windowSelection] is what [window.getSelection()] returns: [None] for
    [null], otherwise [isCollapsed] and the text of [toString()].  The result
    is the [text] of the new selection state. *)
Definition handleSelectionChange (windowSelection : option (bool * string))
  : string :=
  match windowSelection with
  | None => ""
  | Some (isCollapsed, text) =>
      if isCollapsed then ""
      else
        let selectedText := JS.trim text in
        if (JS.strlen selectedText >? 0) && (JS.strlen selectedText <? 200)
        then selectedText else ""
  end.

(** [hasSelection: selection.text.length > 0] *)
Definition hasSelection (text : string) : bool := JS.strlen text >? 0.

(** A string is empty or starts with a character that is not white space. *)
Definition startsClean (s : string) : Prop :=
  match s with
  | EmptyString => True
  | String ch _ => JS.isWhiteSpace ch = false
  end.

(** ** What [HighlightedText] shows *)

(** The text of the rendered segments, one after the other. *)
Definition renderedText (segs : list TextSegment) : string :=
  foldr (fun seg rest => String.append (seg_text seg) rest) EmptyString segs.

(** The highlights of a list, taken in the order of the loop from the
    position [last] on, resolve to spans that follow one another inside the
    content: each starts at or after the end of the one before and ends at
    or after its start, and the last one ends inside the content. *)
Fixpoint spansInOrder (content : string) (last : Z) (l : list TopicHighlight)
  : Prop :=
  match l with
  | [] => 0 <= last <= JS.strlen content
  | h :: rest =>
      match resolveOffsets content h with
      | None => spansInOrder content last rest
      | Some (a, b) => last <= a <= b /\ spansInOrder content b rest
      end
  end.

(** ** The component [TopicFeed]: its own state and its key handlers *)

Record SelectionPopup : Type := {
  popup_isOpen : bool;
  popup_text : string;
  popup_position : Q * Q;
}.

(** [{ isOpen: false, text: "", position: { x: 0, y: 0 } }] *)
Definition closedPopup : SelectionPopup :=
  {| popup_isOpen := false; popup_text := ""; popup_position := (0%Q, 0%Q) |}.

Record QuestionState : Type := {
  question_isOpen : bool;
  question_position : option (Q * Q);
  question_isLoading : bool;
  question_answer : option string;
  question_selectedText : option string;
}.

(** [{ isOpen: false, isLoading: false }] *)
Definition closedQuestion : QuestionState :=
  {| question_isOpen := false; question_position := None;
     question_isLoading := false; question_answer := None;
     question_selectedText := None |}.

(** The feed hook, the text of the selection hook, and the two pieces of
    state of the component. *)
Record FeedView : Type := {
  view_feed : Controller;
  view_selectedText : string;
  selectionPopup : SelectionPopup;
  questionState : QuestionState;
}.

Definition with_view_feed (f : Controller) (v : FeedView) : FeedView :=
  {| view_feed := f; view_selectedText := view_selectedText v;
     selectionPopup := selectionPopup v; questionState := questionState v |}.

Definition with_selectionPopup (p : SelectionPopup) (v : FeedView) : FeedView :=
  {| view_feed := view_feed v; view_selectedText := view_selectedText v;
     selectionPopup := p; questionState := questionState v |}.

Definition with_questionState (q : QuestionState) (v : FeedView) : FeedView :=
  {| view_feed := view_feed v; view_selectedText := view_selectedText v;
     selectionPopup := selectionPopup v; questionState := q |}.

(** [clearSelection()] of the selection hook. *)
Definition clearSelection (v : FeedView) : FeedView :=
  {| view_feed := view_feed v; view_selectedText := "";
     selectionPopup := selectionPopup v; questionState := questionState v |}.

(** The [onEscape] handler. *)
Definition onEscape (v : FeedView) : FeedView :=
  if popup_isOpen (selectionPopup v) then with_selectionPopup closedPopup v
  else if question_isOpen (questionState v) then with_questionState closedQuestion v
  else if JS.truthyStr (currentConcept (state (view_feed v)))
       then with_view_feed (clearConceptExploration (view_feed v)) v
       else with_view_feed (resetDepth (view_feed v)) v.

(** The rectangle of the selected range: [left], [width] and [bottom]. *)
Record Rect : Type := { rect_left : Q; rect_width : Q; rect_bottom : Q }.

(** [handleEnter]: [range] is the rectangle of the first range of
    [window.getSelection()], [None] when there is no selection object or no
    range; [resp] answers the exploration if one is sent. *)
Definition handleEnter (range : option Rect) (resp : ExploreResponse) (now : Z)
    (v : FeedView) : FeedView * list Request :=
  if hasSelection (view_selectedText v)
     && JS.truthyStr (Some (view_selectedText v)) then
    let v' :=
      match range with
      | Some rect =>
          with_selectionPopup
            {| popup_isOpen := true; popup_text := view_selectedText v;
               popup_position :=
                 ((rect_left rect + rect_width rect / 2)%Q,
                  (rect_bottom rect + 10)%Q) |} v
      | None => v
      end in
    (clearSelection v', [])
  else if popup_isOpen (selectionPopup v) then
    let '(f, reqs) :=
      exploreConcept (popup_text (selectionPopup v)) resp (view_feed v) in
    (with_selectionPopup closedPopup (with_view_feed f v), reqs)
  else (with_view_feed (navigate Right now (view_feed v)) v, []).

(** ** [useKeyboardNavigation]: [handleKeyDown]

    [targetIsInput] says that the event comes from an input or a text
    area. *)
Inductive Key : Type :=
| ArrowUp | ArrowDown | ArrowLeft | ArrowRight | Enter | Escape
| OtherKey (name : string).

Definition handleKeyDown (enabled targetIsInput : bool) (key : Key)
    (range : option Rect) (resp : ExploreResponse) (now : Z) (v : FeedView)
  : FeedView * list Request :=
  if negb enabled then (v, [])
  else if targetIsInput then (v, [])
  else match key with
       | ArrowUp => (with_view_feed (navigate Up now (view_feed v)) v, [])
       | ArrowDown => (with_view_feed (navigate Down now (view_feed v)) v, [])
       | ArrowLeft => (with_view_feed (navigate Left now (view_feed v)) v, [])
       | ArrowRight => (with_view_feed (navigate Right now (view_feed v)) v, [])
       | Enter => handleEnter range resp now v
       | Escape => (onEscape v, [])
       | OtherKey _ => (v, [])
       end.

(** How many things [Escape] has to close: the selection popup, the
    question overlay, the concept overlay and a depth below [Summary]. *)
Definition layers (v : FeedView) : nat :=
  ((if popup_isOpen (selectionPopup v) then 1 else 0)
   + (if question_isOpen (questionState v) then 1 else 0)
   + (if conceptOverlayOpen (state (view_feed v)) then 1 else 0)
   + (match depth (state (view_feed v)) with Summary => 0 | _ => 1 end))%nat.

(** The view of a mounted feed with nothing open and nothing selected. *)
Definition plainView (f : Controller) : FeedView :=
  {| view_feed := f; view_selectedText := "";
     selectionPopup := closedPopup; questionState := closedQuestion |}.

(** * The topics route: removing results with similar titles

    [allResults.filter] with the set [seen], in [GET] of [/api/topics]. *)

Record ValyuResult : Type := {
  result_title : string;
  result_url : string;
  result_content : string;
  result_source : string;
  result_relevance_score : option Q;
  result_publication_date : option string;
}.

(** [r.title.toLowerCase().slice(0, 50)] *)
Definition resultKey (r : ValyuResult) : string :=
  JS.slice (JS.toLowerCase (result_title r)) 0 50.

(** The filter, with the set [seen] as it stands when an element is
    tested. *)
Fixpoint dedupeFrom (seen : gset string) (results : list ValyuResult)
  : list ValyuResult :=
  match results with
  | [] => []
  | r :: rest =>
      let key := resultKey r in
      if bool_decide (key ∈ seen) then dedupeFrom seen rest
      else r :: dedupeFrom ({[key]} ∪ seen) rest
  end.

Definition dedupeByTitle (results : list ValyuResult) : list ValyuResult :=
  dedupeFrom ∅ results.

Definition sampleResult (title url : string) : ValyuResult :=
  {| result_title := title; result_url := url; result_content := "";
     result_source := "wire"; result_relevance_score := None;
     result_publication_date := None |}.

(** The in-flight keys of the speculative concept requests of a log. *)
Definition prefetchKeys (reqs : list Request) : list string :=
  omap (fun r => match r with
                 | PostExplore concept (Some topicId) _ =>
                     Some (String.append topicId (String.append ":" concept))
                 | _ => None
                 end) reqs.

(** The in-flight set [S] and the log agree, from a set [S0] on. *)
Definition trackedConcepts (S0 S : gset string) (log : list Request) : Prop :=
  NoDup (prefetchKeys log)
  /\ S = S0 ∪ list_to_set (prefetchKeys log)
  /\ forall k, k ∈ prefetchKeys log -> k ∉ S0.

(** * Properties *)

(** ** Navigation *)

Section Navigation.

Variable c : Controller.
Variable now : Z.

Let s : TopicFeedState := state c.

(** The guard of [down], [currentIndex < topics.length - 1], is the
    specification's [currentIndex + 1 < length(topics)]. *)
Lemma down_guard :
  (currentIndex s <? len (topics s) - 1) = (currentIndex s + 1 <? len (topics s)).
Proof.
  destruct (Z.ltb_spec (currentIndex s) (len (topics s) - 1));
    destruct (Z.ltb_spec (currentIndex s + 1) (len (topics s))); lia.
Qed.

Lemma navigate_down_moves :
  currentIndex s + 1 < len (topics s) ->
  state (navigate Down now c) =
  with_conceptContent JS.JNull
    (with_currentConcept None
       (with_direction ScrollDown
          (with_depth Summary (with_currentIndex (currentIndex s + 1) s)))).
Proof.
  intros H. unfold navigate. rewrite andb_false_r. fold s.
  rewrite down_guard.
  destruct (Z.ltb_spec (currentIndex s + 1) (len (topics s))); [reflexivity | lia].
Qed.

Lemma navigate_down_stays :
  len (topics s) <= currentIndex s + 1 -> navigate Down now c = c.
Proof.
  intros H. unfold navigate. rewrite andb_false_r. fold s.
  rewrite down_guard.
  destruct (Z.ltb_spec (currentIndex s + 1) (len (topics s))); [lia | reflexivity].
Qed.

Lemma navigate_up_moves :
  0 < currentIndex s ->
  state (navigate Up now c) =
  with_conceptContent JS.JNull
    (with_currentConcept None
       (with_direction ScrollUp
          (with_depth Summary (with_currentIndex (currentIndex s - 1) s)))).
Proof.
  intros H. unfold navigate. rewrite andb_false_r. fold s.
  destruct (Z.gtb_spec (currentIndex s) 0); [reflexivity | lia].
Qed.

Lemma navigate_up_stays :
  currentIndex s <= 0 -> navigate Up now c = c.
Proof.
  intros H. unfold navigate. rewrite andb_false_r. fold s.
  destruct (Z.gtb_spec (currentIndex s) 0); [lia | reflexivity].
Qed.

Lemma navigate_right :
  match depth s with
  | Summary => state (navigate Right now c) = with_depth Expanded s
  | Expanded => state (navigate Right now c) = with_depth Detail s
  | Detail => navigate Right now c = c
  end.
Proof.
  unfold navigate. rewrite andb_false_r. fold s. destruct (depth s); reflexivity.
Qed.

Lemma navigate_left_overlay :
  conceptOverlayOpen s = true ->
  navigate Left now c = clearConceptExploration c.
Proof.
  unfold conceptOverlayOpen, navigate. fold s. intros ->. reflexivity.
Qed.

Lemma navigate_left_depth :
  conceptOverlayOpen s = false ->
  match depth s with
  | Detail => state (navigate Left now c) = with_depth Expanded s
  | Expanded => state (navigate Left now c) = with_depth Summary s
  | Summary => navigate Left now c = c
  end.
Proof.
  unfold conceptOverlayOpen, navigate. fold s. intros ->. simpl.
  destruct (depth s); reflexivity.
Qed.

End Navigation.

(** C1 (as amended).  [navigate] implements the transition table: [down]
    moves to the next topic and resets the depth to [Summary] exactly when
    [currentIndex + 1 < length topics] and otherwise changes nothing; [up] is
    the mirror image with no move at index [0]; [right] steps
    [Summary -> Expanded -> Detail] and changes nothing at [Detail]; [left]
    steps [Detail -> Expanded -> Summary] and changes nothing at [Summary],
    except that with the concept overlay open, which is when [currentConcept]
    is neither [null] nor the empty string, [left] closes the overlay and
    keeps depth and index. *)
Theorem navigate_transition_table (c : Controller) (now : Z) :
  let s := state c in
  let after dir := state (navigate dir now c) in
  (if currentIndex s + 1 <? len (topics s)
   then currentIndex (after Down) = currentIndex s + 1
        /\ depth (after Down) = Summary
        /\ direction (after Down) = ScrollDown
        /\ currentConcept (after Down) = None
        /\ topics (after Down) = topics s
   else navigate Down now c = c)
  /\ (if 0 <? currentIndex s
      then currentIndex (after Up) = currentIndex s - 1
           /\ depth (after Up) = Summary
           /\ direction (after Up) = ScrollUp
           /\ currentConcept (after Up) = None
           /\ topics (after Up) = topics s
      else navigate Up now c = c)
  /\ match depth s with
     | Summary => after Right = with_depth Expanded s
     | Expanded => after Right = with_depth Detail s
     | Detail => navigate Right now c = c
     end
  /\ (if conceptOverlayOpen s
      then conceptOverlayOpen (after Left) = false
           /\ currentConcept (after Left) = None
           /\ depth (after Left) = depth s
           /\ currentIndex (after Left) = currentIndex s
           /\ topics (after Left) = topics s
      else match depth s with
           | Detail => after Left = with_depth Expanded s
           | Expanded => after Left = with_depth Summary s
           | Summary => navigate Left now c = c
           end).
Proof.
  intros s after. subst after. repeat split.
  - destruct (Z.ltb_spec (currentIndex s + 1) (len (topics s))) as [H | H].
    + rewrite (navigate_down_moves c now H). repeat split.
    + apply navigate_down_stays, H.
  - destruct (Z.ltb_spec 0 (currentIndex s)) as [H | H].
    + rewrite (navigate_up_moves c now H). repeat split.
    + apply navigate_up_stays, H.
  - apply navigate_right.
  - destruct (conceptOverlayOpen s) eqn:Hopen.
    + rewrite (navigate_left_overlay c now Hopen). repeat split.
    + apply navigate_left_depth, Hopen.
Qed.

(** C1, the counterexample.  With [currentConcept] the empty string, which
    is not [null], the test [state.currentConcept && direction === "left"]
    fails: [left] steps the depth from [Detail] to [Expanded] and the concept
    stays as it was. *)
Lemma navigate_left_empty_concept :
  currentConcept (state emptyConceptAtDetail) = Some ""
  /\ depth (state emptyConceptAtDetail) = Detail
  /\ depth (state (navigate Left 0 emptyConceptAtDetail)) = Expanded
  /\ currentConcept (state (navigate Left 0 emptyConceptAtDetail)) = Some "".
Proof. repeat split. Qed.

(** What a move to another topic does to the concept fields: the two
    content fields are reset, [isExploringConcept] is not assigned. *)
Lemma navigate_topic_change (c : Controller) (now : Z) (dir : SwipeDirection) :
  dir = Down \/ dir = Up ->
  currentIndex (state (navigate dir now c)) <> currentIndex (state c) ->
  depth (state (navigate dir now c)) = Summary
  /\ currentConcept (state (navigate dir now c)) = None
  /\ conceptContent (state (navigate dir now c)) = JS.JNull
  /\ isExploringConcept (state (navigate dir now c)) = isExploringConcept (state c).
Proof.
  intros [-> | ->] Hmoved.
  - destruct (Z.lt_ge_cases (currentIndex (state c) + 1) (len (topics (state c)))) as [H | H].
    + rewrite (navigate_down_moves c now H). repeat split.
    + rewrite (navigate_down_stays c now H) in Hmoved. congruence.
  - destruct (Z.lt_ge_cases 0 (currentIndex (state c))) as [H | H].
    + rewrite (navigate_up_moves c now H). repeat split.
    + rewrite (navigate_up_stays c now) in Hmoved by lia. congruence.
Qed.

(** C2, the code at the failing input.  While an exploration is under way
    ([isExploringConcept] is [true]) [down] moves from the first topic to the
    second, resets the depth and both concept fields, and leaves
    [isExploringConcept] at [true]; [clearConceptExploration] on the same
    state sets it to [false]. *)
Lemma navigate_down_keeps_loading_flag :
  isExploringConcept (state exploringAtFirst) = true
  /\ currentIndex (state exploringAtFirst) = 0
  /\ currentIndex (state (navigate Down 0 exploringAtFirst)) = 1
  /\ depth (state (navigate Down 0 exploringAtFirst)) = Summary
  /\ currentConcept (state (navigate Down 0 exploringAtFirst)) = None
  /\ conceptContent (state (navigate Down 0 exploringAtFirst)) = JS.JNull
  /\ isExploringConcept (state (navigate Down 0 exploringAtFirst)) = true
  /\ isExploringConcept (state (clearConceptExploration exploringAtFirst)) = false.
Proof. repeat split. Qed.

(** ** Concept exploration *)

Lemma exploreConcept_start_miss (concept : string) (c : Controller) :
  JS.truthy (JS.get (conceptCache (state c)) (normalizeConcept concept)) = false ->
  exploreConcept_start concept c =
  (setState (fun prev =>
     with_isExploringConcept true
       (with_conceptContent JS.JNull (with_currentConcept (Some concept) prev))) c,
   Some (PostExplore concept (topic_id <$> currentTopic (state c))
           (topic_content <$> currentTopic (state c)))).
Proof. intros H. unfold exploreConcept_start. rewrite H. reflexivity. Qed.

Lemma exploreConcept_start_hit (concept : string) (c : Controller) :
  JS.truthy (JS.get (conceptCache (state c)) (normalizeConcept concept)) = true ->
  exploreConcept_start concept c =
  (setState (fun prev =>
     with_isExploringConcept false
       (with_conceptContent (JS.get (conceptCache prev) (normalizeConcept concept))
          (with_currentConcept (Some concept) prev))) c,
   None).
Proof. intros H. unfold exploreConcept_start. rewrite H. reflexivity. Qed.

Lemma get_own (obj : gmap string JS.value) (k : string) (v : JS.value) :
  obj !! k = Some v -> JS.get obj k = v.
Proof. intros H. unfold JS.get. rewrite H. reflexivity. Qed.

Lemma get_set_eq (obj : gmap string JS.value) (k : string) (v : JS.value) :
  JS.get (JS.set obj k v) k = v.
Proof. apply get_own. unfold JS.set. apply lookup_insert_eq. Qed.

Lemma truthy_nonempty (content : string) :
  content <> "" -> JS.truthy (JS.JString content) = true.
Proof.
  intros H. simpl. destruct (String.eqb_spec content ""); [contradiction | reflexivity].
Qed.

(** C10.  The cache test of [exploreConcept] is a truthiness test: when the
    cache holds the empty string or [undefined] under the normalized key,
    the call takes the miss branch, sets the loading flag and sends a request
    whatever the answer will be. *)
Theorem exploreConcept_falsy_entry_is_miss
    (concept : string) (v : JS.value) (resp : ExploreResponse) (c : Controller) :
  conceptCache (state c) !! normalizeConcept concept = Some v ->
  v = JS.JString "" \/ v = JS.JUndefined ->
  let request :=
    PostExplore concept (topic_id <$> currentTopic (state c))
      (topic_content <$> currentTopic (state c)) in
  snd (exploreConcept_start concept c) = Some request
  /\ isExploringConcept (state (fst (exploreConcept_start concept c))) = true
  /\ conceptContent (state (fst (exploreConcept_start concept c))) = JS.JNull
  /\ currentConcept (state (fst (exploreConcept_start concept c))) = Some concept
  /\ snd (exploreConcept concept resp c) = [request].
Proof.
  intros Hown Hv request.
  assert (Hmiss : JS.truthy (JS.get (conceptCache (state c)) (normalizeConcept concept)) = false).
  { rewrite (get_own _ _ _ Hown). destruct Hv as [-> | ->]; reflexivity. }
  unfold exploreConcept. rewrite (exploreConcept_start_miss _ _ Hmiss).
  repeat split.
Qed.

Lemma exploreConcept_falsy_entry_is_miss_witness :
  conceptCache (state afterErrorBodyPrefetch) !! "quantum error correction"
  = Some JS.JUndefined
  /\ snd (exploreConcept "Quantum Error Correction" NetworkError afterErrorBodyPrefetch)
     = [PostExplore "Quantum Error Correction" (Some "topic-1") (Some quantumContent)].
Proof.
  split; [vm_compute; reflexivity |].
  apply (exploreConcept_falsy_entry_is_miss "Quantum Error Correction" JS.JUndefined
           NetworkError afterErrorBodyPrefetch).
  - vm_compute; reflexivity.
  - right; reflexivity.
Defined.

Lemma append_assoc (a b d : string) :
  String.append (String.append a b) d = String.append a (String.append b d).
Proof.
  induction a as [| ch a IH]; [reflexivity |].
  change (String ch (String.append (String.append a b) d)
          = String ch (String.append a (String.append b d))).
  now rewrite IH.
Qed.

(** The message of the source is the specification's followed by one more
    sentence. *)
Lemma fallbackMessage_spec (concept : string) :
  fallbackMessage concept
  = String.append (specFallbackMessage concept) " Please try again.".
Proof.
  unfold fallbackMessage, specFallbackMessage.
  rewrite !append_assoc. reflexivity.
Qed.

Lemma exploreConcept_resolve_failed (concept : string) (resp : ExploreResponse)
    (c : Controller) :
  requestFailed resp = true ->
  exploreConcept_resolve concept resp c =
  setState (fun prev =>
    with_isExploringConcept false
      (with_conceptContent (JS.JString (fallbackMessage concept)) prev)) c.
Proof.
  destruct resp as [| [] [v |]]; simpl; intros H; try discriminate H; reflexivity.
Qed.

(** C4 (as amended).  When the request [exploreConcept] sends fails, the
    call ends normally with that single request: the overlay shows the
    concept, its content is the message
    [Unable to research "<text>" at this time. Please try again.] (the
    specification's message followed by [ Please try again.]), the loading
    flag is cleared and the cache is the one it was, so nothing is stored
    under the normalized key. *)
Theorem exploreConcept_failure
    (concept : string) (resp : ExploreResponse) (c : Controller) :
  JS.truthy (JS.get (conceptCache (state c)) (normalizeConcept concept)) = false ->
  requestFailed resp = true ->
  snd (exploreConcept concept resp c)
  = [PostExplore concept (topic_id <$> currentTopic (state c))
       (topic_content <$> currentTopic (state c))]
  /\ currentConcept (state (fst (exploreConcept concept resp c))) = Some concept
  /\ conceptContent (state (fst (exploreConcept concept resp c)))
     = JS.JString (fallbackMessage concept)
  /\ fallbackMessage concept
     = String.append (specFallbackMessage concept) " Please try again."
  /\ isExploringConcept (state (fst (exploreConcept concept resp c))) = false
  /\ conceptCache (state (fst (exploreConcept concept resp c)))
     = conceptCache (state c).
Proof.
  intros Hmiss Hfail. unfold exploreConcept.
  rewrite (exploreConcept_start_miss _ _ Hmiss).
  rewrite (exploreConcept_resolve_failed _ _ _ Hfail).
  repeat split. apply fallbackMessage_spec.
Qed.

Lemma exploreConcept_failure_witness :
  conceptContent (state (fst (exploreConcept "butyrate" (Responded false None) feed3)))
  = JS.JString (fallbackMessage "butyrate")
  /\ conceptCache (state (fst (exploreConcept "butyrate" (Responded false None) feed3)))
     !! "butyrate" = None.
Proof.
  destruct (exploreConcept_failure "butyrate" (Responded false None) feed3)
    as (_ & _ & Hcontent & _ & _ & Hcache).
  - vm_compute; reflexivity.
  - reflexivity.
  - split; [exact Hcontent | rewrite Hcache; vm_compute; reflexivity].
Defined.

(** C4, the counterexample.  After a network error on "butyrate" the content
    shown is the source's message, which is not the message the
    specification quotes: it is longer by the closing sentence. *)
Lemma exploreConcept_failure_message_differs :
  conceptContent (state (fst (exploreConcept "butyrate" NetworkError feed3)))
  = JS.JString (fallbackMessage "butyrate")
  /\ conceptContent (state (fst (exploreConcept "butyrate" NetworkError feed3)))
     <> JS.JString (specFallbackMessage "butyrate")
  /\ String.length (fallbackMessage "butyrate") = 61%nat
  /\ String.length (specFallbackMessage "butyrate") = 43%nat.
Proof.
  split; [reflexivity |]. split; [| split; reflexivity].
  intros H. vm_compute in H. discriminate H.
Qed.

Lemma exploreConcept_resolve_ok (concept : string) (content : JS.value)
    (c : Controller) :
  exploreConcept_resolve concept (Responded true (Some content)) c =
  setState (fun prev =>
    with_conceptCache
      (JS.set (conceptCache prev) (normalizeConcept concept) content)
      (with_isExploringConcept false (with_conceptContent content prev))) c.
Proof. reflexivity. Qed.

(** After a call answered with a non-empty explanation the cache is truthy
    at the normalized key. *)
Lemma exploreConcept_caches (x content : string) (c : Controller) :
  content <> "" ->
  let first := exploreConcept x (Responded true (Some (JS.JString content))) c in
  JS.truthy (JS.get (conceptCache (state (fst first))) (normalizeConcept x)) = true
  /\ (snd first = []
      \/ JS.get (conceptCache (state (fst first))) (normalizeConcept x)
         = JS.JString content)
  /\ (length (snd first) <= 1)%nat.
Proof.
  intros Hne first. subst first. unfold exploreConcept.
  destruct (JS.truthy (JS.get (conceptCache (state c)) (normalizeConcept x))) eqn:Hc.
  - rewrite (exploreConcept_start_hit _ _ Hc). simpl.
    split; [exact Hc | split; [left; reflexivity | lia]].
  - rewrite (exploreConcept_start_miss _ _ Hc), exploreConcept_resolve_ok. simpl.
    rewrite get_set_eq.
    split; [apply truthy_nonempty, Hne | split; [right; reflexivity | lia]].
Qed.

(** C3 (as amended).  The cache key is the text lower-cased and trimmed, so
    two texts with the same normalized form address the same entry: once a
    call for [x] has ended with a non-empty explanation in the cache (its
    request succeeded, or it was a hit itself), a call for [y] sends no
    request, whatever the service would answer; it shows [y] as typed with
    the cached explanation, clears the loading flag and leaves the cache as
    it is.  The two calls together send at most one request. *)
Theorem exploreConcept_same_key_hits
    (x y content : string) (resp : ExploreResponse) (c : Controller) :
  normalizeConcept x = normalizeConcept y ->
  content <> "" ->
  let first := exploreConcept x (Responded true (Some (JS.JString content))) c in
  let second := exploreConcept y resp (fst first) in
  (length (snd first ++ snd second) <= 1)%nat
  /\ snd second = []
  /\ currentConcept (state (fst second)) = Some y
  /\ conceptContent (state (fst second))
     = JS.get (conceptCache (state (fst first))) (normalizeConcept x)
  /\ JS.truthy (conceptContent (state (fst second))) = true
  /\ (snd first = [] \/ conceptContent (state (fst second)) = JS.JString content)
  /\ isExploringConcept (state (fst second)) = false
  /\ conceptCache (state (fst second)) = conceptCache (state (fst first)).
Proof.
  intros Hkey Hne first second.
  destruct (exploreConcept_caches x content c Hne) as (Htruthy & Hcontent & Hlen).
  fold first in Htruthy, Hcontent, Hlen.
  assert (Hsecond : second =
    (setState (fun prev =>
       with_isExploringConcept false
         (with_conceptContent (JS.get (conceptCache prev) (normalizeConcept y))
            (with_currentConcept (Some y) prev))) (fst first), [])).
  { subst second. unfold exploreConcept.
    rewrite exploreConcept_start_hit; [reflexivity | now rewrite <- Hkey]. }
  rewrite Hsecond. simpl. rewrite <- Hkey, app_nil_r.
  repeat split; assumption.
Qed.

Lemma exploreConcept_same_key_hits_witness :
  normalizeConcept "Quantum" = "quantum"
  /\ normalizeConcept "quantum " = "quantum"
  /\ snd (exploreConcept "quantum " NetworkError
            (fst (exploreConcept "Quantum"
                    (Responded true (Some (JS.JString "Physics of the very small.")))
                    feed3))) = []
  /\ conceptContent
       (state (fst (exploreConcept "quantum " NetworkError
                      (fst (exploreConcept "Quantum"
                              (Responded true (Some (JS.JString "Physics of the very small.")))
                              feed3)))))
     = JS.JString "Physics of the very small.".
Proof.
  split; [reflexivity |]. split; [reflexivity |].
  destruct (exploreConcept_same_key_hits "Quantum" "quantum "
              "Physics of the very small." NetworkError feed3)
    as (_ & Hnone & _ & _ & _ & Hcontent & _).
  - reflexivity.
  - discriminate.
  - split; [exact Hnone |].
    destruct Hcontent as [Hhit | Hc]; [vm_compute in Hhit; discriminate Hhit | exact Hc].
Defined.

(** C3, the counterexample.  Two calls in a row with the same text, the
    first of which is answered with a network error: nothing is cached, and
    the second call sends the request again. *)
Lemma exploreConcept_twice_after_failure :
  snd (exploreConcept "Quantum" NetworkError feed3)
  ++ snd (exploreConcept "Quantum" NetworkError
            (fst (exploreConcept "Quantum" NetworkError feed3)))
  = [PostExplore "Quantum" (Some "topic-1") (Some quantumContent);
     PostExplore "Quantum" (Some "topic-1") (Some quantumContent)].
Proof. vm_compute. reflexivity. Qed.

(** ** Speculative prefetch *)

(** Without white space around the text, the key of the prefetch is the key
    of the lookup: a prefetch answered with a non-empty explanation turns
    the next [exploreConcept] on that highlight into a hit. *)
Lemma preloadConcept_then_explore_hits
    (h : TopicHighlight) (ok : bool) (content : string)
    (resp : ExploreResponse) (c : Controller) :
  JS.trim (JS.toLowerCase (hl_text h)) = JS.toLowerCase (hl_text h) ->
  content <> "" ->
  snd (exploreConcept (hl_text h) resp
         (preloadConcept_resolve h (Responded ok (Some (JS.JString content))) c))
  = [].
Proof.
  intros Hkey Hne. unfold exploreConcept.
  rewrite exploreConcept_start_hit; [reflexivity |].
  unfold normalizeConcept. rewrite Hkey. simpl.
  rewrite get_set_eq. apply truthy_nonempty, Hne.
Qed.

(** C5, the code at the failing input.  For the highlight "Surface Codes "
    [preloadTopics] sends the speculative request; its answer is stored
    under the text lower-cased but not trimmed, "surface codes ", and nothing
    is stored under the normalized key "surface codes"; so the click on the
    highlight, [exploreConcept] on the same text, misses the cache and sends
    the request again. *)
Lemma preload_key_is_not_trimmed :
  snd (preloadTopics 2 feedPadded)
  = [GetExpand "topic-4" "Error Correction" "Surface Codes protect qubits.";
     PostExplore "Surface Codes " (Some "topic-4")
       (Some "Surface Codes protect qubits.")]
  /\ conceptCache (state feedPaddedWarm) !! "surface codes "
     = Some (JS.JString "Codes on a lattice of qubits.")
  /\ normalizeConcept (hl_text paddedHighlight) = "surface codes"
  /\ conceptCache (state feedPaddedWarm) !! normalizeConcept (hl_text paddedHighlight)
     = None
  /\ snd (exploreConcept (hl_text paddedHighlight) NetworkError feedPaddedWarm)
     = [PostExplore "Surface Codes " (Some "topic-4")
          (Some "Surface Codes protect qubits.")].
Proof. repeat split; vm_compute; reflexivity. Qed.

Lemma expandIds_app (l1 l2 : list Request) :
  expandIds (l1 ++ l2) = expandIds l1 ++ expandIds l2.
Proof. apply omap_app. Qed.

Lemma at_index_Some {A : Type} (l : list A) (i : Z) (x : A) :
  at_index l i = Some x -> 0 <= i < len l.
Proof.
  unfold at_index, len. destruct (Z.ltb_spec i 0) as [Hneg | Hpos]; [discriminate |].
  intros H. apply lookup_lt_Some in H. lia.
Qed.

Lemma tracked_refl (R : gset string) : tracked R R [].
Proof.
  unfold tracked. simpl. split; [constructor | split; [set_solver | set_solver]].
Qed.

(** Sending the deep dive of a topic that is not in the set, and adding it. *)
Lemma tracked_expand (R0 R : gset string) (log : list Request) (t : Topic) :
  tracked R0 R log -> topic_id t ∉ R ->
  tracked R0 ({[topic_id t]} ∪ R) (log ++ [buildExpandUrl t]).
Proof.
  intros (Hnd & HR & Hfresh) Hnot. unfold tracked.
  rewrite expandIds_app. simpl (expandIds [buildExpandUrl t]).
  assert (Hnew : topic_id t ∉ expandIds log) by set_solver.
  split; [| split].
  - apply NoDup_app. split; [exact Hnd |]. split; [set_solver | apply NoDup_singleton].
  - set_solver.
  - set_solver.
Qed.

(** The concept requests of the current topic add no deep dive. *)
Lemma preloadHighlight_expandIds (t : Topic) (hs : list TopicHighlight)
    (inflight : gset string) (reqs : list Request) :
  expandIds (snd (foldl (preloadHighlight t) (inflight, reqs) hs)) = expandIds reqs.
Proof.
  revert inflight reqs. induction hs as [| h hs IH]; intros inflight reqs; [reflexivity |].
  simpl. case_bool_decide; [apply IH |].
  rewrite IH, expandIds_app. simpl. apply app_nil_r.
Qed.

Lemma preloadHighlight_requests (t : Topic) (hs : list TopicHighlight)
    (inflight : gset string) (reqs : list Request) (r : Request) :
  r ∈ snd (foldl (preloadHighlight t) (inflight, reqs) hs) ->
  r ∈ reqs \/ exists h, h ∈ hs /\ r = PostExplore (hl_text h) (Some (topic_id t))
                                      (Some (topic_content t)).
Proof.
  revert inflight reqs. induction hs as [| h hs IH]; intros inflight reqs; [now left |].
  simpl. case_bool_decide.
  - intros Hr. destruct (IH _ _ Hr) as [? | (h' & ? & ?)]; [now left |].
    right. exists h'. split; [now apply list_elem_of_further | assumption].
  - intros Hr. destruct (IH _ _ Hr) as [Hin | (h' & ? & ?)].
    + apply elem_of_app in Hin. destruct Hin as [? | Hin]; [now left |].
      apply list_elem_of_singleton in Hin. right. exists h. split; [apply list_elem_of_here | exact Hin].
    + right. exists h'. split; [now apply list_elem_of_further | assumption].
Qed.

Section PreloadCall.

Variable preloadCount : Z.
Variable c : Controller.

Let s : TopicFeedState := state c.

(** The test of the [for] loop. *)
Lemma upcomingIndices_spec (i : Z) :
  i ∈ upcomingIndices preloadCount s
  <-> (currentIndex s + 1 <= i
       < Z.min (currentIndex s + preloadCount + 1) (len (topics s))).
Proof.
  unfold upcomingIndices, startIdx, endIdx. rewrite elem_of_seqZ. lia.
Qed.

Lemma preloadCurrent_state : state (fst (preloadCurrent c)) = s.
Proof.
  unfold preloadCurrent. destruct (currentTopic (state c)) as [t |]; [| reflexivity].
  case_bool_decide; [reflexivity |].
  destruct (foldl _ _ _). reflexivity.
Qed.

Lemma preloadCurrent_tracked (R0 : gset string) (log : list Request) :
  tracked R0 (preloadedRef c) log ->
  tracked R0 (preloadedRef (fst (preloadCurrent c))) (log ++ snd (preloadCurrent c)).
Proof.
  intros Htr. unfold preloadCurrent.
  destruct (currentTopic (state c)) as [t |]; [| simpl; now rewrite app_nil_r].
  case_bool_decide as Hin; [simpl; now rewrite app_nil_r |].
  pose proof (preloadHighlight_expandIds t (topic_highlights t)
                (conceptPreloadRef (with_preloadedRef ({[topic_id t]} ∪ preloadedRef c) c))
                [buildExpandUrl t]) as Hids.
  destruct (foldl _ _ _) as [inflight reqs]. simpl in *.
  pose proof (tracked_expand _ _ _ t Htr Hin) as (Hnd & HR & Hfresh).
  unfold tracked. rewrite expandIds_app, Hids.
  rewrite expandIds_app in Hnd, HR, Hfresh. simpl in *. auto.
Qed.

End PreloadCall.

Section PreloadUpcoming.

Variable tps : list Topic.

Lemma preloadUpcoming_tracked (R0 : gset string) (log : list Request)
    (idxs : list Z) (R : gset string) (reqs : list Request) :
  tracked R0 R (log ++ reqs) ->
  tracked R0 (fst (foldl (preloadUpcoming tps) (R, reqs) idxs))
    (log ++ snd (foldl (preloadUpcoming tps) (R, reqs) idxs)).
Proof.
  revert R reqs. induction idxs as [| i idxs IH]; intros R reqs Htr; [exact Htr |].
  simpl. destruct (at_index tps i) as [t |]; [| now apply IH].
  case_bool_decide as Hin; [now apply IH |].
  apply IH. rewrite app_assoc. now apply tracked_expand.
Qed.

(** Every request the loop adds is the deep dive of a topic at one of the
    indices, which was not in the set. *)
Lemma preloadUpcoming_requests (idxs : list Z) (R : gset string)
    (reqs : list Request) (r : Request) :
  r ∈ snd (foldl (preloadUpcoming tps) (R, reqs) idxs) ->
  r ∈ reqs
  \/ exists i t, i ∈ idxs /\ at_index tps i = Some t /\ r = buildExpandUrl t
                 /\ topic_id t ∉ R.
Proof.
  revert R reqs. induction idxs as [| i idxs IH]; intros R reqs Hr; [now left |].
  simpl in Hr. destruct (at_index tps i) as [t |] eqn:Hat.
  - case_bool_decide as Hin.
    + destruct (IH _ _ Hr) as [? | (j & u & ? & ? & ? & ?)]; [now left |].
      right. exists j, u. repeat split; [now apply list_elem_of_further | assumption ..].
    + destruct (IH _ _ Hr) as [Hold | (j & u & ? & ? & ? & Hnot)].
      * apply elem_of_app in Hold. destruct Hold as [? | Hnew]; [now left |].
        apply list_elem_of_singleton in Hnew. right. exists i, t.
        repeat split; [apply list_elem_of_here | assumption ..].
      * right. exists j, u.
        repeat split; [now apply list_elem_of_further | assumption .. | set_solver].
  - destruct (IH _ _ Hr) as [? | (j & u & ? & ? & ? & ?)]; [now left |].
    right. exists j, u. repeat split; [now apply list_elem_of_further | assumption ..].
Qed.

Lemma preloadUpcoming_grows (idxs : list Z) (R : gset string)
    (reqs : list Request) :
  R ⊆ fst (foldl (preloadUpcoming tps) (R, reqs) idxs).
Proof.
  revert R reqs. induction idxs as [| i idxs IH]; intros R reqs; [reflexivity |].
  simpl. destruct (at_index tps i) as [t |]; [| apply IH].
  case_bool_decide; [apply IH |].
  etransitivity; [| apply IH]. set_solver.
Qed.

(** After the loop every topic at one of the indices is in the set. *)
Lemma preloadUpcoming_covers (idxs : list Z) (R : gset string)
    (reqs : list Request) (i : Z) (t : Topic) :
  i ∈ idxs -> at_index tps i = Some t ->
  topic_id t ∈ fst (foldl (preloadUpcoming tps) (R, reqs) idxs).
Proof.
  revert R reqs. induction idxs as [| j idxs IH]; intros R reqs Hi Hat.
  - now apply elem_of_nil in Hi.
  - apply elem_of_cons in Hi. destruct Hi as [<- | Hi].
    + simpl. rewrite Hat. case_bool_decide as Hin.
      * now apply preloadUpcoming_grows.
      * apply preloadUpcoming_grows. set_solver.
    + simpl. destruct (at_index tps j); [| now apply IH].
      case_bool_decide; now apply IH.
Qed.

End PreloadUpcoming.

Lemma preloadTopics_tracked (preloadCount : Z) (c : Controller)
    (R0 : gset string) (log : list Request) :
  tracked R0 (preloadedRef c) log ->
  tracked R0 (preloadedRef (fst (preloadTopics preloadCount c)))
    (log ++ snd (preloadTopics preloadCount c)).
Proof.
  intros Htr. unfold preloadTopics.
  pose proof (preloadCurrent_tracked c R0 log Htr) as Hcur.
  destruct (preloadCurrent c) as [c1 reqs]. simpl in Hcur.
  pose proof (preloadUpcoming_tracked (topics (state c)) R0 log
                (upcomingIndices preloadCount (state c)) _ _ Hcur) as Hup.
  destruct (foldl _ _ _) as [requested reqs']. exact Hup.
Qed.

Lemma preloadSession_tracked (preloadCount : Z) (sts : list TopicFeedState)
    (c : Controller) (R0 : gset string) (log : list Request) :
  tracked R0 (preloadedRef c) log ->
  tracked R0 (preloadedRef (fst (preloadSession preloadCount sts c)))
    (log ++ snd (preloadSession preloadCount sts c)).
Proof.
  revert c log. induction sts as [| st sts IH]; intros c log Htr.
  - simpl. now rewrite app_nil_r.
  - simpl.
    pose proof (preloadTopics_tracked preloadCount (setState (fun _ => st) c) R0 log Htr)
      as Hstep.
    destruct (preloadTopics _ _) as [c1 reqs]. simpl in Hstep.
    specialize (IH c1 _ Hstep).
    destruct (preloadSession _ _ c1) as [c2 reqs']. simpl in *.
    now rewrite app_assoc.
Qed.

Lemma preloadCurrent_requests (c : Controller) (r : Request) :
  r ∈ snd (preloadCurrent c) ->
  exists t, currentTopic (state c) = Some t /\ (topic_id t ∉ preloadedRef c)
            /\ (r = buildExpandUrl t
                \/ exists h, h ∈ topic_highlights t
                             /\ r = PostExplore (hl_text h) (Some (topic_id t))
                                      (Some (topic_content t))).
Proof.
  unfold preloadCurrent. destruct (currentTopic (state c)) as [t |];
    [| intros Hr; now apply elem_of_nil in Hr].
  case_bool_decide as Hin; [intros Hr; now apply elem_of_nil in Hr |].
  pose proof (preloadHighlight_requests t (topic_highlights t)
                (conceptPreloadRef (with_preloadedRef ({[topic_id t]} ∪ preloadedRef c) c))
                [buildExpandUrl t] r) as Hreqs.
  destruct (foldl _ _ _) as [inflight reqs]. simpl in *. intros Hr.
  exists t. split; [reflexivity |]. split; [exact Hin |].
  destruct (Hreqs Hr) as [Hfirst | Hconcept]; [| now right].
  apply list_elem_of_singleton in Hfirst. now left.
Qed.

Lemma preloadCurrent_grows (c : Controller) :
  preloadedRef c ⊆ preloadedRef (fst (preloadCurrent c)).
Proof.
  unfold preloadCurrent. destruct (currentTopic (state c)) as [t |]; [| reflexivity].
  case_bool_decide; [reflexivity |].
  destruct (foldl _ _ _). simpl. set_solver.
Qed.

(** C6.  Over a session, whatever the states the prefetch effect runs on
    (moves forward and back, new batches), the deep-dive requests of
    [preloadTopics] are for pairwise distinct topic ids, none of which was in
    the already-requested set at the start, and each is in the set
    afterwards.  In one call the loop runs over exactly the indices [i] with
    [currentIndex + 1 <= i < min (currentIndex + preloadCount + 1) length];
    every deep dive of the call is for the topic at [currentIndex] or at one
    of these indices, an index inside the list, and every topic at one of
    these indices has its deep dive requested, by this call or before it. *)
Theorem preload_deep_dives_once_in_range
    (preloadCount : Z) (sts : list TopicFeedState) (c : Controller) :
  let session := preloadSession preloadCount sts c in
  let call := preloadTopics preloadCount c in
  let s := state c in
  NoDup (expandIds (snd session))
  /\ (forall i, i ∈ expandIds (snd session) ->
        (i ∉ preloadedRef c) /\ i ∈ preloadedRef (fst session))
  /\ (forall i, i ∈ upcomingIndices preloadCount s
        <-> (currentIndex s + 1 <= i
             < Z.min (currentIndex s + preloadCount + 1) (len (topics s))))
  /\ (forall topicId title content,
        GetExpand topicId title content ∈ snd call ->
        exists i t,
          (i = currentIndex s \/ i ∈ upcomingIndices preloadCount s)
          /\ 0 <= i < len (topics s)
          /\ at_index (topics s) i = Some t
          /\ GetExpand topicId title content = buildExpandUrl t
          /\ topicId ∉ preloadedRef c)
  /\ (forall i t,
        i ∈ upcomingIndices preloadCount s -> at_index (topics s) i = Some t ->
        topic_id t ∈ preloadedRef c \/ topic_id t ∈ expandIds (snd call)).
Proof.
  intros session call s.
  pose proof (preloadSession_tracked preloadCount sts c _ [] (tracked_refl _))
    as (Hnd & HR & Hfresh).
  pose proof (preloadTopics_tracked preloadCount c _ [] (tracked_refl _))
    as (_ & HRcall & _).
  fold session in Hnd, HR, Hfresh. fold call in HRcall. simpl in *.
  split; [exact Hnd |]. split; [| split; [| split]].
  - intros i Hi. split; [now apply Hfresh | set_solver].
  - apply upcomingIndices_spec.
  - intros topicId title content Hr. subst call. unfold preloadTopics in Hr.
    pose proof (preloadCurrent_requests c (GetExpand topicId title content)) as Hcur.
    pose proof (preloadCurrent_grows c) as Hgrow.
    destruct (preloadCurrent c) as [c1 reqs]. simpl in *.
    pose proof (preloadUpcoming_requests (topics (state c))
                  (upcomingIndices preloadCount (state c)) (preloadedRef c1) reqs
                  (GetExpand topicId title content)) as Hup.
    destruct (foldl _ _ _) as [requested reqs']. simpl in *.
    destruct (Hup Hr) as [Hold | (i & t & Hi & Hat & Heq & Hnot)].
    + destruct (Hcur Hold) as (t & Hat & Hnot & [Heq | (h & _ & Heq)]);
        [| discriminate Heq].
      exists (currentIndex s), t. split; [now left |].
      split; [exact (at_index_Some _ _ _ Hat) |]. split; [exact Hat |].
      split; [exact Heq |]. injection Heq as -> _ _. exact Hnot.
    + exists i, t. split; [now right |].
      split; [exact (at_index_Some _ _ _ Hat) |]. split; [exact Hat |].
      split; [exact Heq |]. injection Heq as -> _ _. set_solver.
  - intros i t Hi Hat.
    assert (Hin : topic_id t ∈ preloadedRef (fst call)).
    { subst call. unfold preloadTopics.
      pose proof (preloadCurrent_grows c) as Hgrow.
      destruct (preloadCurrent c) as [c1 reqs].
      pose proof (preloadUpcoming_covers (topics (state c))
                    (upcomingIndices preloadCount (state c)) (preloadedRef c1) reqs
                    i t Hi Hat) as Hcov.
      destruct (foldl _ _ _) as [requested reqs']. exact Hcov. }
    rewrite HRcall in Hin. set_solver.
Qed.

(** ** Pagination *)

Lemma isNewTopic_spec (existing : list Topic) (t : Topic) :
  isNewTopic existing t = true
  <-> (topic_id t ∉ topic_id <$> existing) /\ (titleKey t ∉ titleKey <$> existing).
Proof.
  unfold isNewTopic. repeat case_bool_decide; set_solver.
Qed.

(** Whatever list the callback closed over, the answer only appends to the
    latest list and keeps the position. *)
Lemma loadMoreTopics_resolve_grows (snapshot : list Topic)
    (resp : TopicsResponse) (now : Z) (c : Controller) :
  topics (state (loadMoreTopics_resolve snapshot resp now c))
  = topics (state c) ++ filter (fun t => isNewTopic snapshot t = true) (batchOf resp)
  /\ currentIndex (state (loadMoreTopics_resolve snapshot resp now c))
     = currentIndex (state c)
  /\ isLoadingMore (state (loadMoreTopics_resolve snapshot resp now c)) = false.
Proof.
  destruct resp as [msg | batch m h]; simpl.
  - rewrite app_nil_r. repeat split.
  - repeat split.
Qed.

Lemma loadMoreTopics_unfold (resp : TopicsResponse) (now : Z) (c : Controller) :
  loadMoreTopics resp now c
  = if isLoadingMore (state c) then (c, [])
    else (loadMoreTopics_resolve (topics (state c)) resp now
            (setState (with_isLoadingMore true) c), [GetTopics]).
Proof. reflexivity. Qed.

(** The answer of a call appends to the list of the latest state and keeps
    its position; what it appends is the part of the batch that has neither
    its id nor its title key in the list at the call.  The new list has no
    duplicate id when the latest list and the batch have none and every id of
    the latest list was in the list at the call, as it is when nothing
    happened in between. *)
Lemma loadMoreTopics_interleaved_growth
    (between : list Event) (resp : TopicsResponse) (now : Z) (c : Controller) :
  isLoadingMore (state c) = false ->
  let called := topics (state c) in
  let latest := state (run between (setState (with_isLoadingMore true) c)) in
  let after := state (fst (loadMoreTopics_interleaved between resp now c)) in
  topics after
  = topics latest ++ filter (fun t => isNewTopic called t = true) (batchOf resp)
  /\ currentIndex after = currentIndex latest
  /\ (NoDup (topic_id <$> topics latest) -> NoDup (topic_id <$> batchOf resp) ->
      (forall i, i ∈ (topic_id <$> topics latest) -> i ∈ (topic_id <$> called)) ->
      NoDup (topic_id <$> topics after)).
Proof.
  intros Hflight called latest after. subst called latest after.
  unfold loadMoreTopics_interleaved. rewrite Hflight. cbn [fst].
  destruct (loadMoreTopics_resolve_grows (topics (state c)) resp now
              (run between (setState (with_isLoadingMore true) c)))
    as (Htopics & Hindex & _).
  split; [exact Htopics |]. split; [exact Hindex |].
  intros Hlatest Hbatch Hknown. rewrite Htopics, fmap_app. apply NoDup_app.
  split; [exact Hlatest |]. split.
  - intros i Hi Hi'. apply list_elem_of_fmap in Hi' as (t & -> & Ht).
    apply list_elem_of_filter in Ht as [Hnew _].
    apply isNewTopic_spec in Hnew as [Hid _]. apply Hid, Hknown, Hi.
  - eapply sublist_NoDup; [exact Hbatch |]. apply fmap_sublist, sublist_filter.
Qed.

(** C7.  The answer of [loadMoreTopics] is filtered against the list at the
    call, not against the list it is appended to.  On a feed of three topics
    the condition of the infinite-scroll effect holds; [loadMoreTopics] is
    called, [refetch()] is called and answered with the topic "topic-9", and
    then the batch "topic-9", "topic-5" comes in: neither id is among
    "topic-1", "topic-2", "topic-3", both topics are appended, and the list
    holds "topic-9" twice.  The same batch as the answer of a call made
    after the refetch is filtered against the list it extends, and only
    "topic-5" is appended. *)
Lemma loadMoreTopics_stale_filter :
  topic_id <$> topics (state fetchedFeed) = ["topic-1"; "topic-2"; "topic-3"]
  /\ shouldLoadMore (state fetchedFeed) = true
  /\ topic_id <$> topics (state (run refetchAnswered (step EvLoadMore fetchedFeed)))
     = ["topic-9"]
  /\ topic_id <$> [topicD; topicE] = ["topic-9"; "topic-5"]
  /\ topic_id <$> topics (state (fst (loadMoreTopics_interleaved refetchAnswered
                                        (TopicsOk [topicD; topicE] (Some Live) None)
                                        3 fetchedFeed)))
     = ["topic-9"; "topic-9"; "topic-5"]
  /\ topic_id <$> topics (state (fst (loadMoreTopics
                                        (TopicsOk [topicD; topicE] (Some Live) None)
                                        3 (run refetchAnswered fetchedFeed))))
     = ["topic-9"; "topic-5"].
Proof. repeat split; vm_compute; reflexivity. Qed.

(** Two topics of one batch under the same id are both appended: the filter
    compares a topic of the batch with the list only. *)
Lemma loadMoreTopics_batch_duplicate :
  NoDup (topic_id <$> topics (state feed3))
  /\ topic_id <$> topics (state (fst (loadMoreTopics
                                        (TopicsOk [topicD; topicD'] (Some Live) None)
                                        0 feed3)))
     = ["topic-1"; "topic-2"; "topic-3"; "topic-9"; "topic-9"].
Proof.
  split; [| vm_compute; reflexivity].
  vm_compute. repeat constructor; set_solver.
Qed.

(** ** Restoring the feed *)

(** A storage that throws is read as empty and written without effect. *)
Lemma denied_storage_is_silent (s : Storage) (now : Z) (tps : list Topic) (idx : Z) :
  storage_denied s = true ->
  loadFromStorage now s = (None, s) /\ saveToStorage tps idx now s = s.
Proof. intros H. unfold loadFromStorage, saveToStorage. rewrite H. now split. Qed.

Lemma full_storage_is_silent (s : Storage) (now : Z) (tps : list Topic) (idx : Z) :
  storage_full s = true -> saveToStorage tps idx now s = s.
Proof. intros H. unfold saveToStorage. rewrite H, orb_true_r. reflexivity. Qed.

(** When the first call finds nothing to restore it is the forced
    refresh. *)
Lemma fetchTopics_nothing_saved (now now' : Z) (resp : TopicsResponse)
    (c : Controller) :
  initializedRef c = false ->
  fst (loadFromStorage now (localStorage c)) = None ->
  fetchTopics false now resp now' c
  = fetchTopics true now resp now'
      (with_localStorage (snd (loadFromStorage now (localStorage c))) c).
Proof.
  intros Hinit Hload. unfold fetchTopics. rewrite Hinit. simpl.
  destruct (loadFromStorage now (localStorage c)) as [saved sto].
  simpl in Hload. subst saved. reflexivity.
Qed.

(** A forced refresh asks the service, whatever the storage holds. *)
Lemma fetchTopics_forced (now now' : Z) (resp : TopicsResponse) (c : Controller) :
  snd (fetchTopics true now resp now' c) = [GetTopics].
Proof. unfold fetchTopics. simpl. now destruct resp. Qed.

(** C8 (as amended).  The first [fetchTopics] of a controller reads the
    stored feed.  An entry that is at most one hour old and holds at least
    one topic is restored: topics and index come from it, the loading flag is
    cleared, the storage is left as it is and no request is sent.  An entry
    older than one hour is removed from the storage, and an entry without
    topics is ignored; in both cases, as when nothing is stored, when the
    stored text is not JSON or when the storage throws, the call goes on as a
    forced refresh and asks the service.  A write to a storage that throws
    changes nothing.  No case raises an error. *)
Theorem fetchTopics_restore
    (sto : Storage) (now now' : Z) (resp : TopicsResponse) :
  let c := mount sto in
  let out := fetchTopics false now resp now' c in
  (forall d, storage_denied sto = false -> storage_item sto = Some (Parsed d) ->
     now - saved_timestamp d <= oneHour -> saved_topics d <> [] ->
     snd out = []
     /\ topics (state (fst out)) = saved_topics d
     /\ currentIndex (state (fst out)) = saved_currentIndex d
     /\ isLoading (state (fst out)) = false
     /\ localStorage (fst out) = sto)
  /\ (forall d, storage_denied sto = false -> storage_item sto = Some (Parsed d) ->
        oneHour < now - saved_timestamp d ->
        loadFromStorage now sto = (None, removeItem sto)
        /\ out = fetchTopics true now resp now' (mount (removeItem sto))
        /\ snd out = [GetTopics])
  /\ (forall d, storage_denied sto = false -> storage_item sto = Some (Parsed d) ->
        now - saved_timestamp d <= oneHour -> saved_topics d = [] ->
        out = fetchTopics true now resp now' c /\ snd out = [GetTopics])
  /\ (storage_denied sto = true \/ storage_item sto = None
      \/ (exists raw, storage_item sto = Some (Unparsable raw)) ->
      loadFromStorage now sto = (None, sto)
      /\ out = fetchTopics true now resp now' c /\ snd out = [GetTopics])
  /\ (storage_denied sto = true \/ storage_full sto = true ->
      forall tps idx, saveToStorage tps idx now' sto = sto).
Proof.
  intros c out. split; [| split; [| split; [| split]]].
  - intros d Hok Hitem Hfresh Htopics. subst out c.
    unfold fetchTopics, loadFromStorage. simpl. rewrite Hok, Hitem.
    destruct (Z.gtb_spec (now - saved_timestamp d) oneHour) as [Hgt | _]; [lia |].
    destruct (Z.gtb_spec (len (saved_topics d)) 0) as [_ | Hlen].
    + simpl. repeat split.
    + destruct (saved_topics d); [contradiction | unfold len in Hlen; simpl in Hlen; lia].
  - intros d Hok Hitem Hstale.
    assert (Hload : loadFromStorage now sto = (None, removeItem sto)).
    { unfold loadFromStorage. rewrite Hok, Hitem.
      destruct (Z.gtb_spec (now - saved_timestamp d) oneHour); [reflexivity | lia]. }
    split; [exact Hload |].
    assert (Hout : out = fetchTopics true now resp now' (mount (removeItem sto))).
    { subst out. rewrite fetchTopics_nothing_saved; subst c; simpl;
        rewrite ?Hload; reflexivity. }
    split; [exact Hout |]. rewrite Hout. apply fetchTopics_forced.
  - intros d Hok Hitem Hfresh Hempty.
    assert (Hout : out = fetchTopics true now resp now' c).
    { subst out c. unfold fetchTopics, loadFromStorage. simpl. rewrite Hok, Hitem.
      destruct (Z.gtb_spec (now - saved_timestamp d) oneHour) as [Hgt | _]; [lia |].
      rewrite Hempty. simpl. destruct sto; reflexivity. }
    split; [exact Hout |]. rewrite Hout. apply fetchTopics_forced.
  - intros Hcase.
    assert (Hload : loadFromStorage now sto = (None, sto)).
    { unfold loadFromStorage. destruct (storage_denied sto); [reflexivity |].
      destruct Hcase as [Hb | [-> | (raw & ->)]]; [discriminate Hb | reflexivity ..]. }
    split; [exact Hload |].
    assert (Hout : out = fetchTopics true now resp now' c).
    { subst out. rewrite fetchTopics_nothing_saved; subst c; simpl;
        rewrite ?Hload; [| reflexivity ..]. simpl. destruct sto; reflexivity. }
    split; [exact Hout |]. rewrite Hout. apply fetchTopics_forced.
  - intros [Hdenied | Hfull] tps idx.
    + apply (denied_storage_is_silent sto now' tps idx Hdenied).
    + apply (full_storage_is_silent sto now' tps idx Hfull).
Qed.

Lemma fetchTopics_restore_witness :
  snd (fetchTopics false 100000 (TopicsFailed "offline") 100000
         (mount (freshEntry [topicA; topicB])))
  = []
  /\ topics (state (fst (fetchTopics false 100000 (TopicsFailed "offline") 100000
                           (mount (freshEntry [topicA; topicB])))))
     = [topicA; topicB]
  /\ currentIndex (state (fst (fetchTopics false 100000 (TopicsFailed "offline") 100000
                                 (mount (freshEntry [topicA; topicB])))))
     = 1.
Proof.
  destruct (fetchTopics_restore (freshEntry [topicA; topicB]) 100000 100000
              (TopicsFailed "offline")) as (Hfresh & _).
  destruct (Hfresh {| saved_topics := [topicA; topicB]; saved_currentIndex := 1;
                      saved_timestamp := 40000 |})
    as (Hreqs & Htopics & Hindex & _).
  - reflexivity.
  - reflexivity.
  - vm_compute. discriminate.
  - discriminate.
  - split; [exact Hreqs | split; [exact Htopics | exact Hindex]].
Defined.

(** C8, the counterexample.  A stored feed that is one minute old and holds
    no topic is not restored: the call asks the service and shows its
    batch. *)
Lemma fetchTopics_fresh_empty_entry :
  storage_item (freshEntry []) =
    Some (Parsed {| saved_topics := []; saved_currentIndex := 1;
                    saved_timestamp := 40000 |})
  /\ 100000 - 40000 < oneHour
  /\ snd (fetchTopics false 100000 (TopicsOk [topicA] (Some Live) None) 100000
            (mount (freshEntry [])))
     = [GetTopics]
  /\ topics (state (fst (fetchTopics false 100000 (TopicsOk [topicA] (Some Live) None)
                           100000 (mount (freshEntry [])))))
     = [topicA]
  /\ currentIndex (state (fst (fetchTopics false 100000
                                 (TopicsOk [topicA] (Some Live) None)
                                 100000 (mount (freshEntry [])))))
     = 0.
Proof. repeat split. Qed.

(** ** Highlights *)

Section IndexOf.

Variable text : string.

(** [text] occurs in [content] at offset [n]. *)
Let occ (content : string) (n : nat) : Prop :=
  substring n (String.length text) content = text.

Lemma occ_zero (content : string) :
  occ content 0 <-> String.prefix text content = true.
Proof. unfold occ. symmetry. apply prefix_correct. Qed.

Lemma occ_succ (ch : ascii) (rest : string) (n : nat) :
  occ (String ch rest) (S n) <-> occ rest n.
Proof. unfold occ. reflexivity. Qed.

Lemma occ_empty (n : nat) : occ EmptyString n -> String.prefix text EmptyString = true.
Proof.
  unfold occ. intros H. apply prefix_correct.
  destruct text as [| ch t]; [reflexivity |].
  destruct n; discriminate H.
Qed.

Lemma indexOfFrom_nil (pos : Z) :
  JS.indexOfFrom text EmptyString pos
  = if String.prefix text EmptyString then pos else -1.
Proof. reflexivity. Qed.

Lemma indexOfFrom_cons (ch : ascii) (rest : string) (pos : Z) :
  JS.indexOfFrom text (String ch rest) pos
  = if String.prefix text (String ch rest) then pos
    else JS.indexOfFrom text rest (pos + 1).
Proof. reflexivity. Qed.

(** A result other than [-1] is the start position plus the offset of the
    first occurrence. *)
Lemma indexOfFrom_found (content : string) (pos : Z) :
  0 <= pos -> JS.indexOfFrom text content pos <> -1 ->
  exists n, JS.indexOfFrom text content pos = pos + Z.of_nat n
            /\ occ content n /\ forall m, (m < n)%nat -> ~ occ content m.
Proof.
  revert pos. induction content as [| ch rest IH]; intros pos Hpos Hfound.
  - rewrite indexOfFrom_nil in Hfound |- *.
    destruct (String.prefix text EmptyString) eqn:Hp; [| now elim Hfound].
    exists 0%nat. split; [lia |]. split; [now apply occ_zero | lia].
  - rewrite indexOfFrom_cons in Hfound |- *.
    destruct (String.prefix text (String ch rest)) eqn:Hp.
    + exists 0%nat. split; [lia |]. split; [now apply occ_zero | lia].
    + destruct (IH (pos + 1)) as (n & Hn & Hocc & Hmin); [lia | exact Hfound |].
      exists (S n). split; [lia |]. split; [now apply occ_succ |].
      intros [| m] Hm Hoccm.
      * apply occ_zero in Hoccm. congruence.
      * apply occ_succ in Hoccm. apply (Hmin m); [lia | exact Hoccm].
Qed.

(** The result [-1] means that [text] occurs nowhere. *)
Lemma indexOfFrom_absent (content : string) (pos : Z) (n : nat) :
  JS.indexOfFrom text content pos = -1 -> 0 <= pos -> ~ occ content n.
Proof.
  revert pos n. induction content as [| ch rest IH]; intros pos n Habs Hpos Hocc.
  - apply occ_empty in Hocc. rewrite indexOfFrom_nil, Hocc in Habs. lia.
  - rewrite indexOfFrom_cons in Habs.
    destruct (String.prefix text (String ch rest)) eqn:Hp; [lia |].
    destruct n as [| n].
    + apply occ_zero in Hocc. congruence.
    + apply occ_succ in Hocc. apply (IH (pos + 1) n Habs); [lia | exact Hocc].
Qed.

End IndexOf.

Lemma occursAt_nat (content text : string) (i : Z) :
  occursAt content text i
  <-> 0 <= i /\ substring (Z.to_nat i) (String.length text) content = text.
Proof. reflexivity. Qed.

(** [indexOf] returns the first occurrence when there is one. *)
Lemma indexOf_first (content text : string) :
  JS.indexOf content text <> -1 ->
  firstOccurrence content text (JS.indexOf content text).
Proof.
  intros Hfound. unfold JS.indexOf in *.
  destruct (indexOfFrom_found text content 0) as (n & Hn & Hocc & Hmin);
    [lia | exact Hfound |].
  rewrite Hn. split.
  - split; [lia |]. now replace (Z.to_nat (0 + Z.of_nat n)) with n by lia.
  - intros j Hj [_ Hoccj]. apply (Hmin (Z.to_nat j)); [lia | exact Hoccj].
Qed.

(** [indexOf] returns [-1] exactly when there is no occurrence. *)
Lemma indexOf_absent (content text : string) :
  JS.indexOf content text = -1 <-> forall i, ~ occursAt content text i.
Proof.
  split.
  - intros Habs i [Hi Hocc].
    exact (indexOfFrom_absent text content 0 (Z.to_nat i) Habs ltac:(lia) Hocc).
  - intros Hnone. destruct (Z.eq_dec (JS.indexOf content text) (-1)) as [| Hfound];
      [assumption |].
    destruct (indexOf_first content text Hfound) as [Hocc _].
    now apply Hnone in Hocc.
Qed.

Lemma firstOccurrence_unique (content text : string) (i j : Z) :
  firstOccurrence content text i -> firstOccurrence content text j -> i = j.
Proof.
  intros [Hi Hmini] [Hj Hminj].
  destruct (Z.lt_trichotomy i j) as [Hlt | [Heq | Hgt]]; [| exact Heq |].
  - exfalso. apply (Hminj i); [destruct Hi; lia | exact Hi].
  - exfalso. apply (Hmini j); [destruct Hj; lia | exact Hj].
Qed.

Lemma indexOf_firstOccurrence (content text : string) (i : Z) :
  firstOccurrence content text i -> JS.indexOf content text = i.
Proof.
  intros Hfirst.
  assert (Hfound : JS.indexOf content text <> -1).
  { intros Habs. destruct Hfirst as [Hocc _].
    exact (proj1 (indexOf_absent content text) Habs i Hocc). }
  exact (firstOccurrence_unique _ _ _ _ (indexOf_first content text Hfound) Hfirst).
Qed.

Lemma substring_length_le (s : string) (n m : nat) :
  (String.length (substring n m s) <= String.length s - n)%nat.
Proof.
  revert n m. induction s as [| ch s IH]; intros n m.
  - destruct n, m; simpl; lia.
  - destruct n as [| n].
    + destruct m as [| m]; simpl; [lia |]. specialize (IH 0%nat m). lia.
    + simpl. apply IH.
Qed.

(** Cutting [content] at the offsets of an occurrence gives the text. *)
Lemma slice_occurrence (content text : string) (i : Z) :
  text <> "" -> occursAt content text i ->
  JS.slice content i (i + JS.strlen text) = text.
Proof.
  intros Hne [Hi Hocc].
  pose proof (substring_length_le content (Z.to_nat i) (String.length text)) as Hlen.
  rewrite Hocc in Hlen.
  assert (0 < String.length text)%nat by (destruct text; [contradiction | simpl; lia]).
  unfold JS.slice, JS.clampIndex, JS.strlen.
  destruct (Z.ltb_spec i 0); [lia |].
  destruct (Z.ltb_spec (i + Z.of_nat (String.length text)) 0); [lia |].
  replace (Z.min i (Z.of_nat (String.length content))) with i by lia.
  replace (Z.min (i + Z.of_nat (String.length text)) (Z.of_nat (String.length content)))
    with (i + Z.of_nat (String.length text)) by lia.
  replace (Z.to_nat (Z.max (i + Z.of_nat (String.length text) - i) 0))
    with (String.length text) by lia.
  exact Hocc.
Qed.

Lemma insertByStart_elem (h x : TopicHighlight) (l : list TopicHighlight) :
  x ∈ insertByStart h l <-> x = h \/ x ∈ l.
Proof.
  induction l as [| y l IH]; simpl.
  - rewrite list_elem_of_singleton. set_solver.
  - destruct (startIndex h <=? startIndex y); set_solver.
Qed.

(** Sorting keeps the highlights. *)
Lemma sortedHighlights_elem (x : TopicHighlight) (l : list TopicHighlight) :
  x ∈ sortedHighlights l <-> x ∈ l.
Proof.
  unfold sortedHighlights. induction l as [| y l IH]; simpl; [reflexivity |].
  rewrite insertByStart_elem, IH. set_solver.
Qed.

Section Segments.

Variable content : string.

Lemma segmentStep_keeps (acc : list TextSegment * Z) (h : TopicHighlight)
    (seg : TextSegment) :
  seg ∈ fst acc -> seg ∈ fst (segmentStep content acc h).
Proof.
  destruct acc as [result lastIndex]. unfold segmentStep.
  destruct (resolveOffsets content h) as [[a b] |]; [| tauto].
  simpl. destruct (a >? lastIndex); set_solver.
Qed.

Lemma segments_loop_keeps (l : list TopicHighlight) (acc : list TextSegment * Z)
    (seg : TextSegment) :
  seg ∈ fst acc -> seg ∈ fst (foldl (segmentStep content) acc l).
Proof.
  revert acc. induction l as [| h l IH]; intros acc Hseg; [exact Hseg |].
  simpl. apply IH, segmentStep_keeps, Hseg.
Qed.

(** A highlight whose offsets resolve gets its segment. *)
Lemma segments_loop_marks (l : list TopicHighlight) (acc : list TextSegment * Z)
    (h : TopicHighlight) (a b : Z) :
  h ∈ l -> resolveOffsets content h = Some (a, b) ->
  highlightSegment (JS.slice content a b) h
  ∈ fst (foldl (segmentStep content) acc l).
Proof.
  revert acc. induction l as [| y l IH]; intros acc Hin Hres.
  - now apply elem_of_nil in Hin.
  - apply elem_of_cons in Hin. destruct Hin as [<- | Hin]; [| now apply IH].
    simpl. apply segments_loop_keeps.
    destruct acc as [result lastIndex]. unfold segmentStep. rewrite Hres.
    simpl. set_solver.
Qed.

(** A highlight whose offsets do not resolve gets no segment. *)
Lemma segments_loop_drops (l : list TopicHighlight) (acc : list TextSegment * Z)
    (h : TopicHighlight) (seg : TextSegment) :
  resolveOffsets content h = None ->
  (forall seg', seg' ∈ fst acc -> seg_highlight seg' <> Some h) ->
  seg ∈ fst (foldl (segmentStep content) acc l) -> seg_highlight seg <> Some h.
Proof.
  intros Hnone. revert acc. induction l as [| y l IH]; intros acc Hacc Hseg.
  - now apply Hacc.
  - simpl in Hseg. apply (IH (segmentStep content acc y)); [| exact Hseg].
    clear Hseg. intros seg' Hseg'. destruct acc as [result lastIndex].
    unfold segmentStep in Hseg'.
    destruct (resolveOffsets content y) as [[a b] |] eqn:Hy; [| now apply Hacc].
    simpl in Hseg', Hacc.
    assert (Hmark : seg_highlight (highlightSegment (JS.slice content a b) y) <> Some h).
    { simpl. intros [= ->]. congruence. }
    destruct (a >? lastIndex).
    + apply elem_of_app in Hseg' as [Hseg' | Hseg'].
      * apply elem_of_app in Hseg' as [Hseg' | Hseg']; [now apply Hacc |].
        apply list_elem_of_singleton in Hseg'. now subst seg'.
      * apply list_elem_of_singleton in Hseg'. now subst seg'.
    + apply elem_of_app in Hseg' as [Hseg' | Hseg']; [now apply Hacc |].
      apply list_elem_of_singleton in Hseg'. now subst seg'.
Qed.

Lemma segments_marks (highlights : list TopicHighlight) (h : TopicHighlight)
    (a b : Z) :
  h ∈ highlights -> resolveOffsets content h = Some (a, b) ->
  highlightSegment (JS.slice content a b) h ∈ segments content highlights.
Proof.
  intros Hin Hres. unfold segments.
  destruct highlights as [| y l] eqn:Hl; [now apply elem_of_nil in Hin |].
  rewrite <- Hl in *. clear Hl.
  pose proof (segments_loop_marks (sortedHighlights highlights) ([], 0) h a b
                (proj2 (sortedHighlights_elem h highlights) Hin) Hres) as Hmark.
  destruct (foldl _ _ _) as [result lastIndex]. simpl in Hmark.
  destruct (lastIndex <? JS.strlen content); set_solver.
Qed.

Lemma segments_drops (highlights : list TopicHighlight) (h : TopicHighlight)
    (seg : TextSegment) :
  resolveOffsets content h = None ->
  seg ∈ segments content highlights -> seg_highlight seg <> Some h.
Proof.
  intros Hnone. unfold segments. destruct highlights as [| y l] eqn:Hl.
  - intros Hseg. apply list_elem_of_singleton in Hseg. now subst seg.
  - rewrite <- Hl. clear Hl.
    pose proof (fun s => segments_loop_drops (sortedHighlights highlights) ([], 0) h s
                  Hnone ltac:(intros ? Hin; now apply elem_of_nil in Hin)) as Hdrop.
    destruct (foldl _ _ _) as [result lastIndex]. simpl in Hdrop.
    destruct (lastIndex <? JS.strlen content); [| apply Hdrop].
    intros Hseg. apply elem_of_app in Hseg as [Hseg | Hseg]; [now apply Hdrop |].
    apply list_elem_of_singleton in Hseg. now subst seg.
Qed.

End Segments.

(** C9.  For a highlight with [startIndex = endIndex = 0] and a non-empty
    text the loop of [HighlightedText] looks the text up in the content:
    when it occurs, the offsets are those of its first occurrence, [i] and
    [i + length text], and the highlight is rendered by a segment that holds
    exactly its text; when it does not occur the offsets resolve to nothing,
    no segment of the result carries the highlight, and the result is
    computed all the same.  One of the two cases always applies. *)
Theorem highlight_sentinel_resolution
    (content : string) (highlights : list TopicHighlight) (h : TopicHighlight) :
  startIndex h = 0 -> endIndex h = 0 -> hl_text h <> "" ->
  (forall i, firstOccurrence content (hl_text h) i ->
     resolveOffsets content h = Some (i, i + JS.strlen (hl_text h))
     /\ (h ∈ highlights ->
         highlightSegment (hl_text h) h ∈ segments content highlights))
  /\ ((forall i, ~ occursAt content (hl_text h) i) ->
      resolveOffsets content h = None
      /\ forall seg, seg ∈ segments content highlights ->
                     seg_highlight seg <> Some h)
  /\ ((exists i, firstOccurrence content (hl_text h) i)
      \/ (forall i, ~ occursAt content (hl_text h) i)).
Proof.
  intros Hstart Hend Htext.
  assert (Hfound : forall i, firstOccurrence content (hl_text h) i ->
            resolveOffsets content h = Some (i, i + JS.strlen (hl_text h))).
  { intros i Hfirst. unfold resolveOffsets. rewrite Hstart, Hend. simpl.
    rewrite (indexOf_firstOccurrence _ _ _ Hfirst).
    destruct Hfirst as [[Hi _] _].
    destruct (Z.geb_spec i 0); [reflexivity | lia]. }
  assert (Habsent : (forall i, ~ occursAt content (hl_text h) i) ->
            resolveOffsets content h = None).
  { intros Hnone. unfold resolveOffsets. rewrite Hstart, Hend. simpl.
    rewrite (proj2 (indexOf_absent content (hl_text h)) Hnone). reflexivity. }
  split; [| split].
  - intros i Hfirst. split; [now apply Hfound |].
    intros Hin.
    rewrite <- (slice_occurrence content (hl_text h) i Htext (proj1 Hfirst)) at 1.
    apply segments_marks; [exact Hin | now apply Hfound].
  - intros Hnone. split; [now apply Habsent |].
    intros seg. apply segments_drops. now apply Habsent.
  - destruct (Z.eq_dec (JS.indexOf content (hl_text h)) (-1)) as [Habs | Hidx].
    + right. now apply indexOf_absent.
    + left. eexists. now apply indexOf_first.
Qed.

(** The scenario of the specification: the highlight "quantum error
    correction" with offsets [(0, 0)] resolves to [(28, 52)]. *)
Lemma highlight_sentinel_resolution_witness :
  resolveOffsets quantumContent quantumHighlight = Some (28, 52)
  /\ highlightSegment "quantum error correction" quantumHighlight
     ∈ segments quantumContent [quantumHighlight].
Proof.
  destruct (highlight_sentinel_resolution quantumContent [quantumHighlight]
              quantumHighlight) as (Hfound & _).
  - reflexivity.
  - reflexivity.
  - discriminate.
  - destruct (Hfound 28) as [Hres Hseg].
    + change 28 with (JS.indexOf quantumContent (hl_text quantumHighlight)).
      apply indexOf_first. vm_compute. discriminate.
    + split; [exact Hres | apply Hseg, list_elem_of_here].
Defined.

(** ** Sequences of key presses *)

Lemma navigate_right_depth (c : Controller) (now : Z) :
  depth (state (navigate Right now c))
  = match depth (state c) with Summary => Expanded | _ => Detail end.
Proof.
  pose proof (navigate_right c now) as H.
  destruct (depth (state c)) eqn:Hd; rewrite H; simpl; auto.
Qed.

Lemma navigate_left_closed (c : Controller) (now : Z) :
  conceptOverlayOpen (state c) = false ->
  depth (state (navigate Left now c))
  = match depth (state c) with Detail => Expanded | _ => Summary end
  /\ conceptOverlayOpen (state (navigate Left now c)) = false.
Proof.
  intros Hclosed. pose proof (navigate_left_depth c now Hclosed) as H.
  unfold conceptOverlayOpen in *.
  destruct (depth (state c)) eqn:Hd; rewrite H; simpl; auto.
Qed.

(** From [Summary] the depth after 0, 1, 2 and 3 or more presses of [right]
    is [Summary], [Expanded], [Detail], [Detail]. *)
Lemma depth_after_rights (c : Controller) (now : Z) (n : nat) :
  depth (state c) = Summary ->
  depth (state (presses Right now n c))
  = match n with 0%nat => Summary | 1%nat => Expanded | _ => Detail end.
Proof.
  intros Hd. induction n as [| [| [| n]] IH]; [exact Hd | ..];
    unfold presses in *; simpl Nat.iter in *;
    rewrite navigate_right_depth, IH; reflexivity.
Qed.

Lemma depth_after_rights_witness :
  depth (state (presses Right 0 2 feed3)) = Detail
  /\ depth (state (presses Right 0 3 feed3)) = Detail.
Proof.
  split.
  - apply (depth_after_rights feed3 0 2). reflexivity.
  - apply (depth_after_rights feed3 0 3). reflexivity.
Defined.

(** From [Detail], with no concept overlay, the depth after 0, 1, 2 and 3
    or more presses of [left] is [Detail], [Expanded], [Summary],
    [Summary]. *)
Lemma depth_after_lefts (c : Controller) (now : Z) (n : nat) :
  depth (state c) = Detail -> conceptOverlayOpen (state c) = false ->
  depth (state (presses Left now n c))
  = match n with 0%nat => Detail | 1%nat => Expanded | _ => Summary end.
Proof.
  intros Hd Hclosed.
  assert (H : depth (state (presses Left now n c))
              = match n with 0%nat => Detail | 1%nat => Expanded | _ => Summary end
              /\ conceptOverlayOpen (state (presses Left now n c)) = false).
  { induction n as [| n [IHd IHc]]; [now split |].
    unfold presses in *. simpl Nat.iter.
    destruct (navigate_left_closed _ now IHc) as [Hstep Hc].
    split; [| exact Hc]. rewrite Hstep, IHd. now destruct n as [| [| n]]. }
  exact (proj1 H).
Qed.

Lemma depth_after_lefts_witness :
  depth (state (presses Left 0 3 (presses Right 0 2 feed3))) = Summary.
Proof.
  apply (depth_after_lefts (presses Right 0 2 feed3) 0 3); reflexivity.
Defined.

(** With three topics, [down] three times from the first one reaches the
    third after two moves and stays there. *)
Lemma three_downs_on_three_topics :
  currentIndex (state (presses Down 0 2 feed3)) = 2
  /\ presses Down 0 3 feed3 = presses Down 0 2 feed3.
Proof. split; vm_compute; reflexivity. Qed.

Lemma navigate_topic_change_witness :
  isExploringConcept (state (navigate Down 0 exploringAtFirst)) = true
  /\ conceptContent (state (navigate Down 0 exploringAtFirst)) = JS.JNull.
Proof.
  destruct (navigate_topic_change exploringAtFirst 0 Down)
    as (_ & _ & Hcontent & Hflag).
  - left; reflexivity.
  - vm_compute; discriminate.
  - split; [rewrite Hflag; reflexivity | exact Hcontent].
Defined.

Lemma preloadConcept_then_explore_hits_witness :
  snd (exploreConcept "quantum error correction" NetworkError
         (preloadConcept_resolve quantumHighlight
            (Responded true (Some (JS.JString "Redundant encoding of qubits.")))
            feed3))
  = [].
Proof.
  apply (preloadConcept_then_explore_hits quantumHighlight true
           "Redundant encoding of qubits." NetworkError feed3).
  - reflexivity.
  - discriminate.
Defined.

(** * The controller as a whole *)

(** [fetchTopics] is its first half, followed by the answer when a request
    was sent. *)
Lemma fetchTopics_two_steps (forceRefresh : bool) (now now' : Z)
    (resp : TopicsResponse) (c : Controller) :
  fst (fetchTopics forceRefresh now resp now' c)
  = match snd (fetchTopics forceRefresh now resp now' c) with
    | [] => fetchTopics_first forceRefresh now c
    | _ => fetchTopics_resolve resp now' (fetchTopics_first forceRefresh now c)
    end.
Proof.
  unfold fetchTopics, fetchTopics_first, fetchTopics_resolve, fetchTopics_begin.
  destruct (negb forceRefresh && negb (initializedRef c)).
  - destruct (loadFromStorage now (localStorage c)) as [[[tps idx] |] sto].
    + destruct (len tps >? 0); [reflexivity | now destruct resp].
    + now destruct resp.
  - now destruct resp.
Qed.

Lemma len_app {A : Type} (l k : list A) : len (l ++ k) = len l + len k.
Proof. unfold len. rewrite length_app. lia. Qed.

Lemma indexInRange_grow (tps more : list Topic) (idx : Z) :
  indexInRange tps idx -> indexInRange (tps ++ more) idx.
Proof.
  unfold indexInRange. rewrite len_app. unfold len. lia.
Qed.

Lemma saveToStorage_inRange (tps : list Topic) (idx now : Z) (s : Storage) :
  indexInRange tps idx -> storageInRange s ->
  storageInRange (saveToStorage tps idx now s).
Proof.
  intros Hidx Hs. unfold saveToStorage.
  destruct (storage_denied s || storage_full s); [exact Hs | exact Hidx].
Qed.

Lemma loadFromStorage_inRange (now : Z) (s : Storage) :
  storageInRange s ->
  storageInRange (snd (loadFromStorage now s))
  /\ match fst (loadFromStorage now s) with
     | Some (tps, idx) => indexInRange tps idx
     | None => True
     end.
Proof.
  intros Hs. unfold loadFromStorage.
  destruct (storage_denied s); [now split |].
  unfold storageInRange in Hs.
  destruct (storage_item s) as [[raw | d] |] eqn:Hitem.
  - split; [simpl; unfold storageInRange; now rewrite Hitem | exact I].
  - destruct (now - saved_timestamp d >? oneHour).
    + split; [exact I | exact I].
    + split; [simpl; unfold storageInRange; now rewrite Hitem | exact Hs].
  - split; [simpl; unfold storageInRange; now rewrite Hitem | exact I].
Qed.

Lemma step_positionOk (e : Event) (c : Controller) :
  positionOk c -> positionOk (step e c).
Proof.
  intros [Hidx Hsto]. destruct e as
    [forceRefresh now | resp now | | snapshot resp now | preloadCount | h resp
    | concept | concept resp | | dir now | topicId resp | ]; simpl.
  - unfold fetchTopics_first.
    destruct (negb forceRefresh && negb (initializedRef c)); [| now split].
    destruct (loadFromStorage_inRange now (localStorage c) Hsto) as [Hsto' Hsaved].
    destruct (loadFromStorage now (localStorage c)) as [[[tps idx] |] sto];
      simpl in *; [| now split].
    destruct (len tps >? 0); now split.
  - destruct resp as [msg | batch m hm]; simpl; [now split |].
    split; simpl.
    + unfold indexInRange, len. lia.
    + apply saveToStorage_inRange; [unfold indexInRange, len; lia | exact Hsto].
  - destruct (isLoadingMore (state c)); now split.
  - destruct resp as [msg | batch m hm]; simpl; [now split |].
    split; simpl.
    + now apply indexInRange_grow.
    + apply saveToStorage_inRange; [now apply indexInRange_grow | exact Hsto].
  - unfold preloadEffect. destruct (len (topics (state c)) >? 0); [| now split].
    unfold preloadTopics.
    pose proof (preloadCurrent_state c) as Hst.
    assert (Hls : localStorage (fst (preloadCurrent c)) = localStorage c).
    { unfold preloadCurrent. destruct (currentTopic (state c)); [| reflexivity].
      case_bool_decide; [reflexivity |]. now destruct (foldl _ _ _). }
    destruct (preloadCurrent c) as [c1 reqs]. simpl in Hst, Hls.
    destruct (foldl _ _ _) as [requested reqs']. simpl.
    unfold positionOk. simpl. rewrite Hst, Hls. now split.
  - destruct resp as [| ok [v |]]; now split.
  - unfold exploreConcept_start.
    destruct (JS.truthy _); now split.
  - unfold exploreConcept_resolve. destruct resp as [| [] [v |]]; now split.
  - now split.
  - unfold navigate.
    destruct (JS.truthyStr (currentConcept (state c)) && _); [now split |].
    destruct dir.
    + destruct (Z.gtb_spec (currentIndex (state c)) 0); [| now split].
      assert (indexInRange (topics (state c)) (currentIndex (state c) - 1))
        by (unfold indexInRange in *; lia).
      split; simpl; [assumption | now apply saveToStorage_inRange].
    + destruct (Z.ltb_spec (currentIndex (state c)) (len (topics (state c)) - 1));
        [| now split].
      assert (indexInRange (topics (state c)) (currentIndex (state c) + 1))
        by (unfold indexInRange in *; lia).
      split; simpl; [assumption | now apply saveToStorage_inRange].
    + destruct (depth (state c)); now split.
    + destruct (depth (state c)); now split.
  - unfold expandTopic_resolve. destruct resp as [| [] [v |]]; now split.
  - now split.
Qed.

Lemma run_positionOk (events : list Event) (c : Controller) :
  positionOk c -> positionOk (run events c).
Proof.
  revert c. induction events as [| e events IH]; intros c Hc; [exact Hc |].
  apply IH, step_positionOk, Hc.
Qed.

(** The position of the feed stays inside the list.  From a mounted
    controller whose storage, if it holds a feed, holds a position inside
    that feed's list, whatever events follow in whatever order (calls of the
    callbacks, answers and late answers of the service, restores), the index
    is never negative and is below the number of topics as soon as there is
    one; so the current topic is defined whenever the list is not empty. *)
Theorem position_stays_in_range (sto : Storage) (events : list Event) :
  storageInRange sto ->
  let s := state (run events (mount sto)) in
  0 <= currentIndex s
  /\ (topics s = [] -> currentIndex s = 0)
  /\ (topics s <> [] -> currentIndex s < len (topics s) /\ is_Some (currentTopic s)).
Proof.
  intros Hsto s.
  assert (Hok : positionOk (run events (mount sto))).
  { apply run_positionOk. split; [unfold indexInRange; simpl; lia | exact Hsto]. }
  destruct Hok as [Hidx _]. fold s in Hidx. unfold indexInRange in Hidx.
  split; [lia |]. split.
  - intros Hnil. rewrite Hnil in Hidx. unfold len in Hidx. simpl in Hidx. lia.
  - intros Hne.
    assert (Hlen : 0 < len (topics s)).
    { unfold len. destruct (topics s); [contradiction | simpl; lia]. }
    split; [lia |].
    unfold currentTopic, at_index.
    destruct (Z.ltb_spec (currentIndex s) 0); [lia |].
    apply lookup_lt_is_Some. unfold len in *. lia.
Qed.

Lemma position_stays_in_range_witness :
  currentIndex (state (run [EvFetchTopics false 100000;
                            EvNavigate Down 100001; EvNavigate Down 100002;
                            EvNavigate Down 100003; EvNavigate Up 100004]
                         (mount (freshEntry [topicA; topicB]))))
  < len (topics (state (run [EvFetchTopics false 100000;
                            EvNavigate Down 100001; EvNavigate Down 100002;
                            EvNavigate Down 100003; EvNavigate Up 100004]
                         (mount (freshEntry [topicA; topicB]))))).
Proof.
  apply (position_stays_in_range (freshEntry [topicA; topicB])
           [EvFetchTopics false 100000;
            EvNavigate Down 100001; EvNavigate Down 100002;
            EvNavigate Down 100003; EvNavigate Up 100004]).
  - unfold storageInRange, indexInRange. simpl. unfold len. simpl. lia.
  - vm_compute. discriminate.
Defined.

(** [preloadTopics] works on the two refs only. *)
Lemma preloadTopics_only_refs (preloadCount : Z) (c : Controller) :
  state (fst (preloadTopics preloadCount c)) = state c
  /\ localStorage (fst (preloadTopics preloadCount c)) = localStorage c
  /\ initializedRef (fst (preloadTopics preloadCount c)) = initializedRef c.
Proof.
  unfold preloadTopics.
  assert (Hcur : state (fst (preloadCurrent c)) = state c
                 /\ localStorage (fst (preloadCurrent c)) = localStorage c
                 /\ initializedRef (fst (preloadCurrent c)) = initializedRef c).
  { unfold preloadCurrent. destruct (currentTopic (state c)); [| now repeat split].
    case_bool_decide; [now repeat split |]. now destruct (foldl _ _ _). }
  destruct (preloadCurrent c) as [c1 reqs]. simpl in Hcur.
  destruct (foldl _ _ _) as [requested reqs']. exact Hcur.
Qed.

Lemma step_conceptCache (e : Event) (c : Controller) (k : string) :
  cacheKeyWritten e <> Some k ->
  conceptCache (state (step e c)) !! k = conceptCache (state c) !! k.
Proof.
  intros Hk. destruct e as
    [forceRefresh now | resp now | | snapshot resp now | preloadCount | h resp
    | concept | concept resp | | dir now | topicId resp | ]; simpl.
  - unfold fetchTopics_first.
    destruct (negb forceRefresh && negb (initializedRef c)); [| reflexivity].
    destruct (loadFromStorage now (localStorage c)) as [[[tps idx] |] sto];
      [| reflexivity].
    destruct (len tps >? 0); reflexivity.
  - now destruct resp.
  - now destruct (isLoadingMore (state c)).
  - now destruct resp.
  - unfold preloadEffect. destruct (len (topics (state c)) >? 0); [| reflexivity].
    now rewrite (proj1 (preloadTopics_only_refs preloadCount c)).
  - destruct resp as [| ok [v |]]; simpl in *; try reflexivity.
    unfold JS.set. apply lookup_insert_ne. congruence.
  - unfold exploreConcept_start. now destruct (JS.truthy _).
  - destruct resp as [| [] [v |]]; simpl in *; try reflexivity.
    unfold JS.set. apply lookup_insert_ne. congruence.
  - reflexivity.
  - unfold navigate.
    destruct (JS.truthyStr (currentConcept (state c)) && _); [reflexivity |].
    destruct dir.
    + now destruct (currentIndex (state c) >? 0).
    + now destruct (currentIndex (state c) <? len (topics (state c)) - 1).
    + now destruct (depth (state c)).
    + now destruct (depth (state c)).
  - destruct resp as [| [] [v |]]; reflexivity.
  - reflexivity.
Qed.

Lemma step_conceptCache_keeps (e : Event) (c : Controller) (k : string) :
  is_Some (conceptCache (state c) !! k) ->
  is_Some (conceptCache (state (step e c)) !! k).
Proof.
  intros Hin. destruct (decide (cacheKeyWritten e = Some k)) as [Hw | Hw];
    [| now rewrite step_conceptCache].
  destruct e as
    [forceRefresh now | resp now | | snapshot resp now | preloadCount | h resp
    | concept | concept resp | | dir now | topicId resp | ]; try discriminate Hw.
  - destruct resp as [| ok [v |]]; try discriminate Hw. simpl in *.
    injection Hw as <-. unfold JS.set. rewrite lookup_insert_eq. eauto.
  - destruct resp as [| [] [v |]]; try discriminate Hw. simpl in *.
    injection Hw as <-. unfold JS.set. rewrite lookup_insert_eq. eauto.
Qed.

Lemma run_conceptCache (events : list Event) (c : Controller) (k : string) :
  Forall (fun e => cacheKeyWritten e <> Some k) events ->
  conceptCache (state (run events c)) !! k = conceptCache (state c) !! k.
Proof.
  revert c. induction events as [| e events IH]; intros c Hall; [reflexivity |].
  apply Forall_cons in Hall as [He Hall].
  change (run (e :: events) c) with (run events (step e c)).
  rewrite (IH _ Hall). now apply step_conceptCache.
Qed.

Lemma run_conceptCache_keeps (events : list Event) (c : Controller) (k : string) :
  is_Some (conceptCache (state c) !! k) ->
  is_Some (conceptCache (state (run events c)) !! k).
Proof.
  revert c. induction events as [| e events IH]; intros c Hin; [exact Hin |].
  change (run (e :: events) c) with (run events (step e c)).
  apply IH. now apply step_conceptCache_keeps.
Qed.

(** The concept cache is touched by answers only, each under its own key.
    Over any events, an entry is what it was unless one of the events is an
    answer stored under its key; moves, dismissals, new batches and
    refreshes leave the cache alone; and a key that is in the cache stays in
    it: nothing is ever evicted. *)
Theorem conceptCache_frame (events : list Event) (c : Controller) (k : string) :
  (Forall (fun e => cacheKeyWritten e <> Some k) events ->
   conceptCache (state (run events c)) !! k = conceptCache (state c) !! k)
  /\ (is_Some (conceptCache (state c) !! k) ->
      is_Some (conceptCache (state (run events c)) !! k)).
Proof.
  split; [apply run_conceptCache | apply run_conceptCache_keeps].
Qed.

Lemma conceptCache_frame_witness :
  conceptCache (state (run [EvNavigate Down 5; EvClear; EvLoadMore;
                            EvMoreTopics [] (TopicsOk [topicD] None None) 6;
                            EvFetchTopics true 7]
                         feedPaddedWarm)) !! "surface codes "
  = Some (JS.JString "Codes on a lattice of qubits.").
Proof.
  rewrite (proj1 (conceptCache_frame
                    [EvNavigate Down 5; EvClear; EvLoadMore;
                     EvMoreTopics [] (TopicsOk [topicD] None None) 6;
                     EvFetchTopics true 7] feedPaddedWarm "surface codes ")).
  - vm_compute. reflexivity.
  - repeat constructor; discriminate.
Defined.

(** ** Persistence *)

(** What [saveToStorage] wrote is what [loadFromStorage] returns, for one
    hour. *)
Lemma storage_round_trip (tps : list Topic) (idx now now' : Z) (s : Storage) :
  storage_denied s = false -> storage_full s = false ->
  now' - now <= oneHour ->
  loadFromStorage now' (saveToStorage tps idx now s)
  = (Some (tps, idx), saveToStorage tps idx now s).
Proof.
  intros Hd Hf Hage. unfold saveToStorage, loadFromStorage.
  rewrite Hd, Hf. simpl. rewrite Hd.
  destruct (Z.gtb_spec (now' - now) oneHour); [lia | reflexivity].
Qed.

Lemma navigate_moved_saves (dir : SwipeDirection) (now : Z) (c : Controller) :
  currentIndex (state (navigate dir now c)) <> currentIndex (state c) ->
  localStorage (navigate dir now c)
  = saveToStorage (topics (state c)) (currentIndex (state (navigate dir now c)))
      now (localStorage c)
  /\ topics (state (navigate dir now c)) = topics (state c).
Proof.
  unfold navigate.
  destruct (JS.truthyStr (currentConcept (state c)) && _);
    [simpl; congruence |].
  destruct dir.
  - destruct (currentIndex (state c) >? 0); [now split | congruence].
  - destruct (currentIndex (state c) <? len (topics (state c)) - 1);
      [now split | congruence].
  - destruct (depth (state c)); simpl; congruence.
  - destruct (depth (state c)); simpl; congruence.
Qed.

(** The position survives a reload.  After a command that moved to another
    topic, with a storage that works, the first [fetchTopics] of a
    controller mounted on that storage within the hour restores the same
    topics at the new index and sends no request of its own.  The restored
    list is not empty, so the prefetch effect then runs [preloadTopics] on
    it, as after a fetch. *)
Theorem reload_restores_position
    (dir : SwipeDirection) (now now' now'' : Z) (resp : TopicsResponse)
    (c : Controller) :
  storage_denied (localStorage c) = false ->
  storage_full (localStorage c) = false ->
  topics (state c) <> [] ->
  currentIndex (state (navigate dir now c)) <> currentIndex (state c) ->
  now' - now <= oneHour ->
  let reloaded :=
    fetchTopics false now' resp now'' (mount (localStorage (navigate dir now c))) in
  snd reloaded = []
  /\ topics (state (fst reloaded)) = topics (state c)
  /\ currentIndex (state (fst reloaded)) = currentIndex (state (navigate dir now c))
  /\ isLoading (state (fst reloaded)) = false
  /\ (forall preloadCount,
        preloadEffect preloadCount (fst reloaded)
        = preloadTopics preloadCount (fst reloaded)).
Proof.
  intros Hd Hf Htopics Hmoved Hage reloaded.
  destruct (navigate_moved_saves dir now c Hmoved) as [Hsto _].
  assert (Hlen : (len (topics (state c)) >? 0) = true).
  { apply Z.gtb_lt. unfold len.
    destruct (topics (state c)); [contradiction | simpl length; lia]. }
  subst reloaded. unfold fetchTopics. simpl.
  rewrite Hsto, (storage_round_trip _ _ _ _ _ Hd Hf Hage), Hlen. simpl.
  repeat (split; [reflexivity |]).
  intros preloadCount. unfold preloadEffect. simpl. now rewrite Hlen.
Qed.

Lemma reload_restores_position_witness :
  currentIndex
    (state (fst (fetchTopics false 2000 (TopicsFailed "offline") 2000
                   (mount (localStorage (navigate Down 1000 feed3))))))
  = 1.
Proof.
  apply (reload_restores_position Down 1000 2000 2000 (TopicsFailed "offline") feed3).
  - reflexivity.
  - reflexivity.
  - discriminate.
  - vm_compute. discriminate.
  - vm_compute. discriminate.
Defined.

(** ** Repeated moves *)

Lemma navigate_down_index (c : Controller) (now : Z) :
  currentIndex (state (navigate Down now c))
  = (if currentIndex (state c) <? len (topics (state c)) - 1
     then currentIndex (state c) + 1 else currentIndex (state c))
  /\ topics (state (navigate Down now c)) = topics (state c).
Proof.
  unfold navigate. rewrite andb_false_r.
  destruct (currentIndex (state c) <? len (topics (state c)) - 1); now split.
Qed.

Lemma navigate_up_index (c : Controller) (now : Z) :
  currentIndex (state (navigate Up now c))
  = (if currentIndex (state c) >? 0
     then currentIndex (state c) - 1 else currentIndex (state c)).
Proof.
  unfold navigate. rewrite andb_false_r.
  destruct (currentIndex (state c) >? 0); reflexivity.
Qed.

(** [down] pressed [n] times moves [n] topics on and stops at the last one;
    [up] pressed [n] times moves [n] topics back and stops at the first. *)
Theorem moves_saturate (c : Controller) (now : Z) (n : nat) :
  0 <= currentIndex (state c) < len (topics (state c)) ->
  currentIndex (state (presses Down now n c))
  = Z.min (currentIndex (state c) + Z.of_nat n) (len (topics (state c)) - 1)
  /\ currentIndex (state (presses Up now n c))
     = Z.max (currentIndex (state c) - Z.of_nat n) 0.
Proof.
  intros Hrange. split.
  - assert (H : currentIndex (state (presses Down now n c))
                = Z.min (currentIndex (state c) + Z.of_nat n)
                    (len (topics (state c)) - 1)
                /\ topics (state (presses Down now n c)) = topics (state c)).
    { induction n as [| n [IHi IHt]]; [split; [simpl; lia | reflexivity] |].
      unfold presses in *. simpl Nat.iter.
      destruct (navigate_down_index (Nat.iter n (navigate Down now) c) now)
        as [Hi Ht].
      rewrite Hi, Ht, IHi, IHt. split; [| reflexivity].
      destruct (Z.ltb_spec
                  (Z.min (currentIndex (state c) + Z.of_nat n)
                     (len (topics (state c)) - 1))
                  (len (topics (state c)) - 1)); lia. }
    exact (proj1 H).
  - induction n as [| n IH]; [simpl; lia |].
    unfold presses in *. simpl Nat.iter.
    rewrite navigate_up_index, IH.
    destruct (Z.gtb_spec (Z.max (currentIndex (state c) - Z.of_nat n) 0) 0); lia.
Qed.

Lemma moves_saturate_witness :
  currentIndex (state (presses Down 0 7 feed3)) = 2
  /\ currentIndex (state (presses Up 0 7 (presses Down 0 2 feed3))) = 0.
Proof.
  split.
  - apply (moves_saturate feed3 0 7). vm_compute. split; [discriminate | reflexivity].
  - apply (moves_saturate (presses Down 0 2 feed3) 0 7).
    vm_compute. split; [discriminate | reflexivity].
Defined.

(** ** Deep dives *)

Lemma find_by_id_Some (tps : list Topic) (topicId : string) (t : Topic) :
  List.find (fun t => String.eqb (topic_id t) topicId) tps = Some t ->
  t ∈ tps /\ topic_id t = topicId.
Proof.
  intros H. apply List.find_some in H as [Hin Heq].
  split; [now apply list_elem_of_In | now apply String.eqb_eq].
Qed.

Lemma find_by_id_None (tps : list Topic) (topicId : string) (t : Topic) :
  List.find (fun t => String.eqb (topic_id t) topicId) tps = None ->
  t ∈ tps -> topic_id t <> topicId.
Proof.
  intros H Hin Heq. apply list_elem_of_In in Hin.
  pose proof (List.find_none _ _ H t Hin) as Hf. simpl in Hf.
  apply String.eqb_neq in Hf. contradiction.
Qed.

(** A deep dive that was answered with a non-empty text is not asked for
    again: the second [expandTopic] for the id sends nothing and changes
    nothing, whatever the list of topics holds.  The first call stores the
    text under the id if a topic has it, and sends nothing for an id no topic
    has. *)
Theorem expandTopic_asks_once
    (topicId content : string) (resp : ExploreResponse) (c : Controller) :
  content <> "" ->
  let first :=
    expandTopic topicId (Responded true (Some (JS.JString content))) c in
  expandTopic topicId resp (fst first) = (fst first, [])
  /\ (length (snd first) <= 1)%nat
  /\ (snd first <> [] ->
      expandedContent (state (fst first)) !! topicId = Some (JS.JString content))
  /\ ((forall t, t ∈ topics (state c) -> topic_id t <> topicId) -> first = (c, [])).
Proof.
  intros Hne first. subst first. unfold expandTopic at 2 3 4 5 6 7.
  unfold expandTopic_start.
  destruct (JS.truthy (JS.get (expandedContent (state c)) topicId)) eqn:Hcached.
  - simpl. unfold expandTopic, expandTopic_start. rewrite Hcached.
    repeat split; [lia | congruence].
  - destruct (List.find _ (topics (state c))) as [t |] eqn:Hfind.
    + simpl. unfold expandTopic, expandTopic_start. simpl.
      rewrite get_set_eq, (truthy_nonempty _ Hne).
      repeat split; [lia | | ].
      * intros _. unfold JS.set. apply lookup_insert_eq.
      * intros Hnone. destruct (find_by_id_Some _ _ _ Hfind) as [Hin Hid].
        now apply Hnone in Hin.
    + simpl. unfold expandTopic, expandTopic_start. rewrite Hcached, Hfind.
      repeat split; [lia | congruence].
Qed.

Lemma expandTopic_asks_once_witness :
  expandTopic "topic-2" NetworkError
    (fst (expandTopic "topic-2"
            (Responded true (Some (JS.JString "Microbiome study, in depth.")))
            feed3))
  = (fst (expandTopic "topic-2"
            (Responded true (Some (JS.JString "Microbiome study, in depth.")))
            feed3), []).
Proof.
  apply (expandTopic_asks_once "topic-2" "Microbiome study, in depth."
           NetworkError feed3).
  discriminate.
Defined.

(** A deep dive that failed stores nothing: the next [expandTopic] for the
    id sends the same request again. *)
Theorem expandTopic_retries_after_failure
    (topicId : string) (resp resp' : ExploreResponse) (c : Controller) :
  requestFailed resp = true ->
  fst (expandTopic topicId resp c) = c
  /\ snd (expandTopic topicId resp' (fst (expandTopic topicId resp c)))
     = snd (expandTopic topicId resp c).
Proof.
  intros Hfail.
  assert (Hsame : fst (expandTopic topicId resp c) = c).
  { unfold expandTopic. destruct (expandTopic_start topicId c); [| reflexivity].
    destruct resp as [| [] [v |]]; try discriminate Hfail; reflexivity. }
  split; [exact Hsame |]. rewrite Hsame.
  unfold expandTopic. now destruct (expandTopic_start topicId c).
Qed.

Lemma expandTopic_retries_after_failure_witness :
  snd (expandTopic "topic-2" NetworkError
         (fst (expandTopic "topic-2" (Responded false None) feed3)))
  = snd (expandTopic "topic-2" (Responded false None) feed3).
Proof.
  apply (expandTopic_retries_after_failure "topic-2" (Responded false None)
           NetworkError feed3).
  reflexivity.
Defined.

(** Going deeper fetches the deep dive once.  On a topic shown at
    [Summary], whose id no earlier topic of the list has and for which
    nothing is cached, [right] followed by the auto-expand effect sends the
    deep-dive request of that topic; once it is answered with a non-empty
    text the hook returns that text as [expandedContent], and after [right]
    and [left] (to [Detail] and back to [Expanded]) the effect sends
    nothing. *)
Theorem deeper_fetches_once
    (t : Topic) (content : string) (resp : ExploreResponse) (now : Z)
    (c : Controller) :
  currentTopic (state c) = Some t ->
  depth (state c) = Summary ->
  conceptOverlayOpen (state c) = false ->
  JS.truthy (JS.get (expandedContent (state c)) (topic_id t)) = false ->
  List.find (fun u => String.eqb (topic_id u) (topic_id t)) (topics (state c))
  = Some t ->
  content <> "" ->
  let opened :=
    autoExpand (Responded true (Some (JS.JString content)))
      (navigate Right now c) in
  let back := navigate Left now (navigate Right now (fst opened)) in
  snd opened = [buildExpandUrl t]
  /\ returnedExpandedContent (state (fst opened)) = JS.JString content
  /\ depth (state back) = Expanded
  /\ returnedExpandedContent (state back) = JS.JString content
  /\ snd (autoExpand resp back) = [].
Proof.
  intros Hcur Hdepth Hclosed Hmiss Hfind Hne opened back.
  pose proof (navigate_right c now) as Hright. rewrite Hdepth in Hright.
  assert (Hopened : opened =
    (setState (fun prev =>
       with_expandedContent
         (JS.set (expandedContent prev) (topic_id t) (JS.JString content)) prev)
       (navigate Right now c), [buildExpandUrl t])).
  { subst opened. unfold autoExpand. rewrite Hright. simpl.
    change (currentTopic (with_depth Expanded (state c)))
      with (currentTopic (state c)).
    rewrite Hcur. unfold expandTopic, expandTopic_start. rewrite Hright. simpl.
    rewrite Hmiss, Hfind. reflexivity. }
  assert (Hstate : state (fst opened) =
    with_expandedContent
      (JS.set (expandedContent (state c)) (topic_id t) (JS.JString content))
      (with_depth Expanded (state c))).
  { rewrite Hopened. simpl. now rewrite Hright. }
  assert (Hret : forall s, currentTopic s = Some t ->
            expandedContent s
            = JS.set (expandedContent (state c)) (topic_id t) (JS.JString content) ->
            returnedExpandedContent s = JS.JString content).
  { intros s Hs He. unfold returnedExpandedContent. rewrite Hs, He.
    apply get_set_eq. }
  pose proof (navigate_right (fst opened) now) as Hr2.
  rewrite Hstate in Hr2. simpl in Hr2.
  pose proof (navigate_left_depth (navigate Right now (fst opened)) now) as Hl.
  rewrite Hr2 in Hl. simpl in Hl. specialize (Hl Hclosed). fold back in Hl.
  split; [now rewrite Hopened |]. split; [| split; [| split]].
  - apply Hret; rewrite Hstate; [exact Hcur | reflexivity].
  - now rewrite Hl.
  - apply Hret; rewrite Hl; [exact Hcur | reflexivity].
  - unfold autoExpand. rewrite Hl. simpl.
    change (currentTopic _) with (currentTopic (state c)). rewrite Hcur.
    unfold expandTopic, expandTopic_start. rewrite Hl. simpl.
    now rewrite get_set_eq, (truthy_nonempty _ Hne).
Qed.

Lemma deeper_fetches_once_witness :
  snd (autoExpand (Responded true (Some (JS.JString "The full story.")))
         (navigate Right 0 feed3))
  = [buildExpandUrl topicA].
Proof.
  apply (deeper_fetches_once topicA "The full story." NetworkError 0 feed3);
    try reflexivity.
  discriminate.
Defined.

(** ** More on the prefetch *)

Lemma preloadTopics_covers (preloadCount : Z) (c : Controller) (i : Z) (t : Topic) :
  i ∈ upcomingIndices preloadCount (state c) ->
  at_index (topics (state c)) i = Some t ->
  topic_id t ∈ preloadedRef (fst (preloadTopics preloadCount c)).
Proof.
  intros Hi Hat. unfold preloadTopics.
  destruct (preloadCurrent c) as [c1 reqs].
  pose proof (preloadUpcoming_covers (topics (state c))
                (upcomingIndices preloadCount (state c)) (preloadedRef c1) reqs
                i t Hi Hat) as Hcov.
  destruct (foldl _ _ _) as [requested reqs']. exact Hcov.
Qed.

Lemma navigate_refs (dir : SwipeDirection) (now : Z) (c : Controller) :
  preloadedRef (navigate dir now c) = preloadedRef c
  /\ conceptPreloadRef (navigate dir now c) = conceptPreloadRef c.
Proof.
  unfold navigate.
  destruct (JS.truthyStr (currentConcept (state c)) && _); [now split |].
  destruct dir.
  - now destruct (currentIndex (state c) >? 0).
  - now destruct (currentIndex (state c) <? len (topics (state c)) - 1).
  - now destruct (depth (state c)).
  - now destruct (depth (state c)).
Qed.

(** The concepts of a topic are only prefetched together with its deep
    dive.  A topic that was prefetched as an upcoming topic gets no concept
    request when the user reaches it: after [preloadTopics] with a preload
    count of at least one, [down] and [preloadTopics] again, every request of
    the second run is a deep dive. *)
Theorem reached_topic_gets_no_concept_prefetch
    (preloadCount now : Z) (c : Controller) :
  1 <= preloadCount ->
  0 <= currentIndex (state c) ->
  currentIndex (state c) + 1 < len (topics (state c)) ->
  let moved := navigate Down now (fst (preloadTopics preloadCount c)) in
  currentIndex (state moved) = currentIndex (state c) + 1
  /\ forall r, r ∈ snd (preloadTopics preloadCount moved) ->
               exists t, t ∈ topics (state c) /\ r = buildExpandUrl t.
Proof.
  intros Hcount Hpos Hnext moved.
  destruct (preloadTopics_only_refs preloadCount c) as (Hstate & _ & _).
  assert (Hmoved : state moved =
            with_conceptContent JS.JNull
              (with_currentConcept None
                 (with_direction ScrollDown
                    (with_depth Summary
                       (with_currentIndex (currentIndex (state c) + 1) (state c)))))).
  { subst moved. rewrite navigate_down_moves; rewrite Hstate; [reflexivity | lia]. }
  split; [now rewrite Hmoved |].
  assert (Hat : exists t, at_index (topics (state c)) (currentIndex (state c) + 1)
                          = Some t).
  { unfold at_index. destruct (Z.ltb_spec (currentIndex (state c) + 1) 0); [lia |].
    apply lookup_lt_is_Some. unfold len in Hnext. lia. }
  destruct Hat as [t Hat].
  assert (Hin : topic_id t ∈ preloadedRef moved).
  { subst moved. rewrite (proj1 (navigate_refs Down now _)).
    apply (preloadTopics_covers preloadCount c (currentIndex (state c) + 1) t);
      [| exact Hat].
    apply upcomingIndices_spec. lia. }
  intros r Hr. unfold preloadTopics in Hr.
  assert (Hcur : preloadCurrent moved = (moved, [])).
  { unfold preloadCurrent, currentTopic. rewrite Hmoved. simpl. rewrite Hat.
    now rewrite bool_decide_eq_true_2. }
  rewrite Hcur in Hr.
  pose proof (preloadUpcoming_requests (topics (state moved))
                (upcomingIndices preloadCount (state moved)) (preloadedRef moved)
                [] r) as Hup.
  destruct (foldl _ _ _) as [requested reqs']. simpl in Hr.
  destruct (Hup Hr) as [Hnil | (i & u & _ & Hu & Heq & _)];
    [now apply elem_of_nil in Hnil |].
  exists u. split; [| exact Heq].
  rewrite Hmoved in Hu. simpl in Hu. unfold at_index in Hu.
  destruct (i <? 0); [discriminate |]. eapply list_elem_of_lookup_2, Hu.
Qed.

Lemma reached_topic_gets_no_concept_prefetch_witness :
  currentIndex
    (state (navigate Down 0
              (fst (preloadTopics 2
                      (setState (with_topics [topicB; topicPadded; topicA])
                         feed3)))))
  = 1
  /\ snd (preloadTopics 2
            (navigate Down 0
               (fst (preloadTopics 2
                       (setState (with_topics [topicB; topicPadded; topicA])
                          feed3)))))
     = [].
Proof.
  split; [| vm_compute; reflexivity].
  apply (reached_topic_gets_no_concept_prefetch 2 0
           (setState (with_topics [topicB; topicPadded; topicA]) feed3)).
  - lia.
  - vm_compute. discriminate.
  - vm_compute. reflexivity.
Defined.

(** ** More on pagination *)

Lemma filter_none_new (existing batch : list Topic) :
  (forall t, t ∈ batch ->
     topic_id t ∈ (topic_id <$> existing) \/ titleKey t ∈ (titleKey <$> existing)) ->
  filter (fun t => isNewTopic existing t = true) batch = [].
Proof.
  induction batch as [| t batch IH]; intros Hknown; [reflexivity |].
  rewrite filter_cons_False.
  - apply IH. intros u Hu. apply Hknown. now apply list_elem_of_further.
  - intros Hnew. apply isNewTopic_spec in Hnew.
    destruct (Hknown t (list_elem_of_here _ _)); tauto.
Qed.

(** The in-flight flag and [hasMore].  A call while a load is in flight
    does nothing.  Otherwise the call sends one request and ends with the
    flag cleared: on success [hasMore] is set to [true] whatever the answer
    says; on failure the topics, [hasMore] and the [error] field are left as
    they are (the failure is only logged). *)
Theorem loadMoreTopics_flags (resp : TopicsResponse) (now : Z) (c : Controller) :
  if isLoadingMore (state c)
  then loadMoreTopics resp now c = (c, [])
  else snd (loadMoreTopics resp now c) = [GetTopics]
       /\ isLoadingMore (state (fst (loadMoreTopics resp now c))) = false
       /\ error (state (fst (loadMoreTopics resp now c))) = error (state c)
       /\ match resp with
          | TopicsOk _ _ _ => hasMore (state (fst (loadMoreTopics resp now c))) = true
          | TopicsFailed _ =>
              hasMore (state (fst (loadMoreTopics resp now c))) = hasMore (state c)
              /\ topics (state (fst (loadMoreTopics resp now c))) = topics (state c)
              /\ localStorage (fst (loadMoreTopics resp now c)) = localStorage c
          end.
Proof.
  rewrite loadMoreTopics_unfold. destruct (isLoadingMore (state c)); [reflexivity |].
  destruct resp as [msg | batch m h]; simpl; repeat split.
Qed.

(** A batch of known topics changes nothing and the trigger stays armed.
    When the infinite-scroll condition holds and every topic of the answer
    has its id or its title key among the topics already there, the state
    after [loadMoreTopics] is the state before it: the list did not grow, and
    the condition that started the load holds again. *)
Theorem loadMore_known_batch_rearms
    (batch : list Topic) (m : option Mode) (h : option bool) (now : Z)
    (c : Controller) :
  shouldLoadMore (state c) = true ->
  (forall t, t ∈ batch ->
     topic_id t ∈ (topic_id <$> topics (state c))
     \/ titleKey t ∈ (titleKey <$> topics (state c))) ->
  snd (loadMoreTopics (TopicsOk batch m h) now c) = [GetTopics]
  /\ state (fst (loadMoreTopics (TopicsOk batch m h) now c)) = state c
  /\ shouldLoadMore (state (fst (loadMoreTopics (TopicsOk batch m h) now c))) = true.
Proof.
  intros Hshould Hknown.
  assert (Hflags : hasMore (state c) = true /\ isLoadingMore (state c) = false).
  { unfold shouldLoadMore in Hshould.
    destruct (hasMore (state c)), (isLoadingMore (state c));
      rewrite ?andb_false_r in Hshould; try discriminate Hshould; now split. }
  destruct Hflags as [Hmore Hflight].
  assert (Hstate : state (fst (loadMoreTopics (TopicsOk batch m h) now c)) = state c).
  { rewrite loadMoreTopics_unfold, Hflight. simpl.
    rewrite (filter_none_new _ _ Hknown), app_nil_r.
    destruct (state c); simpl in *; subst; reflexivity. }
  split; [rewrite loadMoreTopics_unfold; now rewrite Hflight |].
  split; [exact Hstate | now rewrite Hstate].
Qed.

Lemma loadMore_known_batch_rearms_witness :
  state (fst (loadMoreTopics (TopicsOk [topicA; topicB; topicC] (Some Demo) (Some false))
                0 feed3))
  = state feed3.
Proof.
  apply (loadMore_known_batch_rearms [topicA; topicB; topicC] (Some Demo)
           (Some false) 0 feed3).
  - reflexivity.
  - intros t Ht. left. vm_compute.
    apply elem_of_cons in Ht as [-> | Ht]; [set_solver |].
    apply elem_of_cons in Ht as [-> | Ht]; [set_solver |].
    apply elem_of_cons in Ht as [-> | Ht]; [set_solver |].
    now apply elem_of_nil in Ht.
Defined.

(** * Input adapters *)

Lemma Qltb_lt (x y : Q) : Qltb x y = true <-> (x < y)%Q.
Proof.
  unfold Qltb. rewrite negb_true_iff. split.
  - intros H. apply Qnot_le_lt. intros Hle. apply Qle_bool_iff in Hle. congruence.
  - intros H. destruct (Qle_bool y x) eqn:Hle; [| reflexivity].
    apply Qle_bool_iff in Hle. now apply Qlt_not_le in H.
Qed.

Lemma Qltb_ge (x y : Q) : Qltb x y = false <-> (y <= x)%Q.
Proof.
  unfold Qltb. rewrite negb_false_iff. apply Qle_bool_iff.
Qed.

Lemma Qabs_cases (x : Q) :
  ((0 <= x)%Q /\ (Qabs x == x)%Q) \/ ((x <= 0)%Q /\ (Qabs x == - x)%Q).
Proof.
  apply (Qabs_case x (fun a => ((0 <= x)%Q /\ (a == x)%Q) \/ ((x <= 0)%Q /\ (a == - x)%Q))).
  - intros H. left. split; [exact H | reflexivity].
  - intros H. right. split; [exact H | reflexivity].
Qed.

Ltac swipe_cases mx my :=
  let ax := fresh "ax" in let ay := fresh "ay" in
  destruct (Qabs_cases mx) as [[? ?] | [? ?]];
  destruct (Qabs_cases my) as [[? ?] | [? ?]];
  set (ax := Qabs mx) in *; set (ay := Qabs my) in *;
  repeat match goal with
         | |- context [Qltb ?a ?b] =>
             let H := fresh "Hcmp" in
             destruct (Qltb a b) eqn:H;
             [apply Qltb_lt in H | apply Qltb_ge in H]
         end;
  simpl.

(** What a drag reports.  With a positive threshold, a drag is dropped
    exactly when it moved less than the threshold on both axes; a reported
    [right] or [left] moved at least the threshold horizontally and strictly
    further than vertically, a reported [down] or [up] moved at least the
    threshold vertically and at least as far as horizontally (a diagonal
    counts as vertical). *)
Theorem onDragEnd_reports (threshold mx my : Q) :
  (0 < threshold)%Q ->
  match onDragEnd true threshold mx my with
  | None => (Qabs mx < threshold)%Q /\ (Qabs my < threshold)%Q
  | Some Right => (threshold <= mx)%Q /\ (Qabs my < mx)%Q
  | Some Left => (mx <= - threshold)%Q /\ (Qabs my < - mx)%Q
  | Some Down => (threshold <= my)%Q /\ (Qabs mx <= my)%Q
  | Some Up => (my <= - threshold)%Q /\ (Qabs mx <= - my)%Q
  end.
Proof.
  intros Hth. unfold onDragEnd. simpl negb. cbv iota.
  swipe_cases mx my; split; lra.
Qed.

Lemma onDragEnd_reports_witness :
  onDragEnd true 50 80 (-30) = Some Right
  /\ (50 <= 80)%Q /\ (Qabs (-30) < 80)%Q.
Proof.
  split; [reflexivity |].
  apply (onDragEnd_reports 50 80 (-30)). reflexivity.
Defined.

(** The opposite drag reports the opposite direction, and a disabled
    recognizer reports nothing. *)
Theorem onDragEnd_opposite (threshold mx my : Q) :
  (0 < threshold)%Q ->
  onDragEnd true threshold (- mx) (- my)
  = opposite <$> onDragEnd true threshold mx my
  /\ onDragEnd false threshold mx my = None.
Proof.
  intros Hth. split; [| reflexivity]. unfold onDragEnd. simpl negb. cbv iota.
  assert (Hx : (Qabs (- mx) == Qabs mx)%Q) by apply Qabs_opp.
  assert (Hy : (Qabs (- my) == Qabs my)%Q) by apply Qabs_opp.
  destruct (Qabs_cases mx) as [[? ?] | [? ?]];
  destruct (Qabs_cases my) as [[? ?] | [? ?]];
  set (ax := Qabs mx) in *; set (ay := Qabs my) in *;
  set (ax' := Qabs (- mx)) in *; set (ay' := Qabs (- my)) in *;
  repeat match goal with
         | |- context [Qltb ?a ?b] =>
             let H := fresh "Hcmp" in
             destruct (Qltb a b) eqn:H;
             [apply Qltb_lt in H | apply Qltb_ge in H]
         end;
  simpl; try reflexivity; exfalso; lra.
Qed.

Lemma onDragEnd_opposite_witness :
  onDragEnd true 50 (- 80) (- -30) = opposite <$> onDragEnd true 50 80 (-30).
Proof.
  apply (onDragEnd_opposite 50 80 (-30)). reflexivity.
Defined.

(** ** Text selection *)

Lemma lowerChar_whiteSpace (ch : ascii) :
  JS.isWhiteSpace (JS.lowerChar ch) = JS.isWhiteSpace ch.
Proof. destruct ch as [[] [] [] [] [] [] [] []]; reflexivity. Qed.

Lemma trimStart_toLowerCase (s : string) :
  JS.trimStart (JS.toLowerCase s) = JS.toLowerCase (JS.trimStart s).
Proof.
  induction s as [| ch s IH]; [reflexivity |].
  cbn [JS.toLowerCase JS.trimStart]. rewrite lowerChar_whiteSpace.
  destruct (JS.isWhiteSpace ch); [exact IH | reflexivity].
Qed.

Lemma trimEnd_toLowerCase (s : string) :
  JS.trimEnd (JS.toLowerCase s) = JS.toLowerCase (JS.trimEnd s).
Proof.
  induction s as [| ch s IH]; [reflexivity |].
  cbn [JS.toLowerCase JS.trimEnd]. rewrite IH, lowerChar_whiteSpace.
  destruct (JS.trimEnd s); cbn [JS.toLowerCase];
    [destruct (JS.isWhiteSpace ch) |]; reflexivity.
Qed.

(** Lower-casing and trimming commute. *)
Lemma trim_toLowerCase (s : string) :
  JS.trim (JS.toLowerCase s) = JS.toLowerCase (JS.trim s).
Proof.
  unfold JS.trim. now rewrite trimStart_toLowerCase, trimEnd_toLowerCase.
Qed.

Lemma trimEnd_idem (s : string) : JS.trimEnd (JS.trimEnd s) = JS.trimEnd s.
Proof.
  induction s as [| ch s IH]; [reflexivity |].
  cbn [JS.trimEnd]. destruct (JS.trimEnd s) as [| d r] eqn:Hend.
  - destruct (JS.isWhiteSpace ch) eqn:Hws; [reflexivity |].
    cbn [JS.trimEnd]. now rewrite Hws.
  - change (JS.trimEnd (String ch (String d r)))
      with (match JS.trimEnd (String d r) with
            | EmptyString =>
                if JS.isWhiteSpace ch then EmptyString else String ch EmptyString
            | r' => String ch r'
            end).
    now rewrite IH.
Qed.

Lemma trimStart_clean (s : string) : startsClean (JS.trimStart s).
Proof.
  induction s as [| ch s IH]; [exact I |].
  cbn [JS.trimStart]. destruct (JS.isWhiteSpace ch) eqn:Hws; [exact IH | exact Hws].
Qed.

Lemma trimEnd_clean (s : string) : startsClean s -> startsClean (JS.trimEnd s).
Proof.
  destruct s as [| ch s]; [trivial |]. intros Hclean. simpl in Hclean.
  cbn [JS.trimEnd]. destruct (JS.trimEnd s); [rewrite Hclean |]; exact Hclean.
Qed.

Lemma trimStart_of_clean (s : string) : startsClean s -> JS.trimStart s = s.
Proof.
  destruct s as [| ch s]; [reflexivity |]. intros Hclean. simpl in Hclean.
  cbn [JS.trimStart]. now rewrite Hclean.
Qed.

(** Trimming twice is trimming once. *)
Lemma trim_idem (s : string) : JS.trim (JS.trim s) = JS.trim s.
Proof.
  unfold JS.trim.
  rewrite (trimStart_of_clean (JS.trimEnd (JS.trimStart s)));
    [apply trimEnd_idem | apply trimEnd_clean, trimStart_clean].
Qed.

(** What a selection hands to [exploreConcept].  Whenever the selection
    hook reports a selection, its text is trimmed, not empty and shorter than
    200 characters; its cache key is just the text in lower case; exploring
    it opens the concept overlay, and [left] then closes the overlay without
    changing depth or position. *)
Theorem selection_is_explorable
    (windowSelection : option (bool * string)) (now : Z) (c : Controller) :
  let selectedText := handleSelectionChange windowSelection in
  hasSelection selectedText = true ->
  let explored := fst (exploreConcept_start selectedText c) in
  0 < JS.strlen selectedText < 200
  /\ JS.trim selectedText = selectedText
  /\ normalizeConcept selectedText = JS.toLowerCase selectedText
  /\ currentConcept (state explored) = Some selectedText
  /\ conceptOverlayOpen (state explored) = true
  /\ conceptOverlayOpen (state (navigate Left now explored)) = false
  /\ depth (state (navigate Left now explored)) = depth (state c)
  /\ currentIndex (state (navigate Left now explored)) = currentIndex (state c).
Proof.
  intros selectedText Hhas explored.
  assert (Hlen : 0 < JS.strlen selectedText < 200 /\ JS.trim selectedText = selectedText).
  { subst selectedText. unfold hasSelection, handleSelectionChange in *.
    destruct windowSelection as [[[] text] |]; try discriminate Hhas.
    destruct (Z.gtb_spec (JS.strlen (JS.trim text)) 0);
      destruct (Z.ltb_spec (JS.strlen (JS.trim text)) 200);
      simpl in *; try discriminate Hhas.
    split; [lia | apply trim_idem]. }
  destruct Hlen as [Hlen Htrim].
  assert (Htruthy : JS.truthyStr (Some selectedText) = true).
  { simpl. destruct (String.eqb_spec selectedText "") as [Hempty | _]; [| reflexivity].
    rewrite Hempty in Hlen. unfold JS.strlen in Hlen. simpl in Hlen. lia. }
  assert (Hconcept : currentConcept (state explored) = Some selectedText
                     /\ depth (state explored) = depth (state c)
                     /\ currentIndex (state explored) = currentIndex (state c)).
  { subst explored. unfold exploreConcept_start.
    destruct (JS.truthy _); now repeat split. }
  destruct Hconcept as (Hconcept & Hdepth & Hindex).
  assert (Hopen : conceptOverlayOpen (state explored) = true).
  { unfold conceptOverlayOpen. now rewrite Hconcept. }
  split; [exact Hlen |]. split; [exact Htrim |]. split.
  { unfold normalizeConcept. now rewrite trim_toLowerCase, Htrim. }
  split; [exact Hconcept |]. split; [exact Hopen |].
  rewrite (navigate_left_overlay explored now Hopen). simpl.
  repeat split; assumption.
Qed.

Lemma selection_is_explorable_witness :
  normalizeConcept (handleSelectionChange (Some (false, "  Gut Bacteria ")))
  = "gut bacteria"
  /\ conceptOverlayOpen
       (state (navigate Left 0
                 (fst (exploreConcept_start
                         (handleSelectionChange (Some (false, "  Gut Bacteria ")))
                         feed3))))
     = false.
Proof.
  destruct (selection_is_explorable (Some (false, "  Gut Bacteria ")) 0 feed3)
    as (_ & _ & Hkey & _ & _ & Hclosed & _).
  - reflexivity.
  - split; [rewrite Hkey; reflexivity | exact Hclosed].
Defined.

(** ** The rendered text *)

Lemma append_nil_r (s : string) : String.append s EmptyString = s.
Proof.
  induction s as [| ch s IH]; [reflexivity |].
  change (String ch (String.append s EmptyString) = String ch s). now rewrite IH.
Qed.

Lemma substring_split (s : string) (n m1 m2 : nat) :
  substring n (m1 + m2) s
  = String.append (substring n m1 s) (substring (n + m1) m2 s).
Proof.
  revert n m1. induction s as [| ch s IH]; intros n m1.
  - destruct n, m1, m2; reflexivity.
  - destruct n as [| n].
    + destruct m1 as [| m1]; [reflexivity |].
      change (String ch (substring 0 (m1 + m2) s)
              = String ch (String.append (substring 0 m1 s) (substring (S m1) m2 (String ch s)))).
      f_equal. exact (IH 0%nat m1).
    + exact (IH n m1).
Qed.

Lemma substring_all (s : string) : substring 0 (String.length s) s = s.
Proof.
  induction s as [| ch s IH]; [reflexivity |].
  change (String ch (substring 0 (String.length s) s) = String ch s). now rewrite IH.
Qed.

Lemma slice_in_range (s : string) (a b : Z) :
  0 <= a <= b -> b <= JS.strlen s ->
  JS.slice s a b = substring (Z.to_nat a) (Z.to_nat (b - a)) s.
Proof.
  intros Hab Hb. unfold JS.slice, JS.clampIndex.
  destruct (Z.ltb_spec a 0); [lia |]. destruct (Z.ltb_spec b 0); [lia |].
  f_equal; f_equal; lia.
Qed.

(** Two slices that meet make one slice. *)
Lemma slice_append (s : string) (a b d : Z) :
  0 <= a <= b -> b <= d <= JS.strlen s ->
  String.append (JS.slice s a b) (JS.slice s b d) = JS.slice s a d.
Proof.
  intros Hab Hbd. rewrite !slice_in_range by lia.
  replace (Z.to_nat (d - a)) with (Z.to_nat (b - a) + Z.to_nat (d - b))%nat by lia.
  rewrite substring_split. f_equal. f_equal. lia.
Qed.

Lemma slice_whole (s : string) : JS.slice s 0 (JS.strlen s) = s.
Proof.
  rewrite slice_in_range by (unfold JS.strlen; lia).
  unfold JS.strlen. rewrite Z.sub_0_r, Nat2Z.id. apply substring_all.
Qed.

Lemma slice_empty (s : string) (a : Z) :
  0 <= a <= JS.strlen s -> JS.slice s a a = EmptyString.
Proof.
  intros Ha. rewrite slice_in_range by lia. rewrite Z.sub_diag.
  generalize (Z.to_nat a). clear Ha. revert s.
  induction s as [| ch s IH]; intros [| n]; try reflexivity. exact (IH n).
Qed.

Lemma renderedText_app (l k : list TextSegment) :
  renderedText (l ++ k) = String.append (renderedText l) (renderedText k).
Proof.
  induction l as [| seg l IH]; [reflexivity |].
  change (String.append (seg_text seg) (renderedText (l ++ k))
          = String.append (String.append (seg_text seg) (renderedText l))
              (renderedText k)).
  now rewrite IH, append_assoc.
Qed.

Lemma renderedText_one (seg : TextSegment) : renderedText [seg] = seg_text seg.
Proof. apply append_nil_r. Qed.

(** The loop keeps: the segments so far spell the content up to
    [lastIndex]. *)
Lemma segments_loop_spells (content : string) (l : list TopicHighlight)
    (result : list TextSegment) (lastIndex : Z) :
  spansInOrder content lastIndex l ->
  0 <= lastIndex ->
  renderedText result = JS.slice content 0 lastIndex ->
  let out := foldl (segmentStep content) (result, lastIndex) l in
  renderedText (fst out) = JS.slice content 0 (snd out)
  /\ 0 <= snd out <= JS.strlen content.
Proof.
  revert result lastIndex. induction l as [| h l IH]; intros result lastIndex Hspans Hpos Hres.
  - simpl in *. split; [exact Hres | exact Hspans].
  - simpl in Hspans |- *. unfold segmentStep at 2.
    destruct (resolveOffsets content h) as [[a b] |]; [| now apply IH].
    destruct Hspans as [Hab Hrest].
    assert (Hend : b <= JS.strlen content).
    { clear - Hrest. revert b Hrest. induction l as [| k l IHl]; intros b Hrest.
      - simpl in Hrest. lia.
      - simpl in Hrest. destruct (resolveOffsets content k) as [[a' b'] |].
        + destruct Hrest as [Hab' Hrest]. specialize (IHl _ Hrest). lia.
        + now apply IHl. }
    apply IH; [exact Hrest | lia |].
    rewrite renderedText_app, renderedText_one. simpl.
    destruct (Z.gtb_spec a lastIndex).
    + rewrite renderedText_app, renderedText_one, Hres. simpl.
      rewrite !slice_append by lia. reflexivity.
    + assert (a = lastIndex) by lia. subst a.
      rewrite Hres. apply slice_append; lia.
Qed.

(** The segments spell the content.  When the spans the highlights resolve
    to, in the order of the loop, follow one another inside the content,
    the texts of the segments of [HighlightedText], put one after the other,
    are exactly the content: nothing is lost and nothing is shown twice. *)
Theorem segments_spell_content (content : string) (highlights : list TopicHighlight) :
  spansInOrder content 0 (sortedHighlights highlights) ->
  renderedText (segments content highlights) = content.
Proof.
  intros Hspans. unfold segments.
  destruct highlights as [| h0 hs] eqn:Hl; [apply append_nil_r |].
  rewrite <- Hl in *. clear Hl.
  pose proof (segments_loop_spells content (sortedHighlights highlights) [] 0
                Hspans ltac:(lia)) as Hloop.
  rewrite slice_empty in Hloop by (unfold JS.strlen; lia).
  specialize (Hloop eq_refl). simpl in Hloop.
  destruct (foldl _ _ _) as [result lastIndex]. simpl in Hloop.
  destruct Hloop as [Hres Hlast].
  destruct (Z.ltb_spec lastIndex (JS.strlen content)).
  - rewrite renderedText_app, renderedText_one, Hres. simpl.
    unfold JS.sliceFrom. rewrite slice_append by lia. apply slice_whole.
  - assert (lastIndex = JS.strlen content) by lia. subst lastIndex.
    rewrite Hres. apply slice_whole.
Qed.

Lemma segments_spell_content_witness :
  renderedText (segments quantumContent
                  [{| hl_id := "h1-0"; hl_text := "Scientists";
                      startIndex := 0; endIndex := 10 |};
                   quantumHighlight; sampleHighlight "h1-2" "method"])
  = quantumContent.
Proof.
  apply segments_spell_content. vm_compute. repeat split; discriminate.
Defined.

(** ** Keys *)

Lemma onEscape_layers (v : FeedView) :
  layers (onEscape v) = Nat.pred (layers v)
  /\ topics (state (view_feed (onEscape v))) = topics (state (view_feed v))
  /\ currentIndex (state (view_feed (onEscape v)))
     = currentIndex (state (view_feed v))
  /\ conceptCache (state (view_feed (onEscape v)))
     = conceptCache (state (view_feed v)).
Proof.
  unfold onEscape, layers, conceptOverlayOpen.
  destruct (popup_isOpen (selectionPopup v)) eqn:Hp; [simpl; rewrite ?Hp; now repeat split |].
  destruct (question_isOpen (questionState v)) eqn:Hq;
    [simpl; rewrite ?Hp, ?Hq; now repeat split |].
  destruct (JS.truthyStr (currentConcept (state (view_feed v)))) eqn:Hc;
    simpl; rewrite ?Hp, ?Hq, ?Hc; [now repeat split |].
  destruct (depth (state (view_feed v))); now repeat split.
Qed.

(** [Escape] closes one thing at a time, the topmost first: the selection
    popup, then the question overlay, then the concept overlay, then the
    depth goes back to [Summary].  After [n] presses [n] fewer things are
    open, so as many presses as there are open things bring the plain
    summary back; no press changes the topics, the position or the concept
    cache. *)
Theorem escape_unwinds (v : FeedView) (n : nat) :
  layers (Nat.iter n onEscape v) = (layers v - n)%nat
  /\ topics (state (view_feed (Nat.iter n onEscape v))) = topics (state (view_feed v))
  /\ currentIndex (state (view_feed (Nat.iter n onEscape v)))
     = currentIndex (state (view_feed v))
  /\ conceptCache (state (view_feed (Nat.iter n onEscape v)))
     = conceptCache (state (view_feed v))
  /\ (if popup_isOpen (selectionPopup v)
      then questionState (onEscape v) = questionState v
           /\ view_feed (onEscape v) = view_feed v
      else if question_isOpen (questionState v)
           then view_feed (onEscape v) = view_feed v
           else if conceptOverlayOpen (state (view_feed v))
                then depth (state (view_feed (onEscape v)))
                     = depth (state (view_feed v))
                else depth (state (view_feed (onEscape v))) = Summary).
Proof.
  split; [| split; [| split; [| split]]].
  - induction n as [| n IH]; [simpl; lia |].
    simpl Nat.iter. rewrite (proj1 (onEscape_layers _)), IH. lia.
  - induction n as [| n IH]; [reflexivity |].
    simpl Nat.iter. now rewrite (proj1 (proj2 (onEscape_layers _))).
  - induction n as [| n IH]; [reflexivity |].
    simpl Nat.iter. now rewrite (proj1 (proj2 (proj2 (onEscape_layers _)))).
  - induction n as [| n IH]; [reflexivity |].
    simpl Nat.iter. now rewrite (proj2 (proj2 (proj2 (onEscape_layers _)))).
  - unfold onEscape, conceptOverlayOpen.
    destruct (popup_isOpen (selectionPopup v)); [now split |].
    destruct (question_isOpen (questionState v)); [reflexivity |].
    destruct (JS.truthyStr (currentConcept (state (view_feed v)))); reflexivity.
Qed.

Lemma exploreConcept_shows (concept : string) (resp : ExploreResponse)
    (c : Controller) :
  currentConcept (state (fst (exploreConcept concept resp c))) = Some concept
  /\ (length (snd (exploreConcept concept resp c)) <= 1)%nat.
Proof.
  unfold exploreConcept, exploreConcept_start.
  destruct (JS.truthy _); simpl; [split; [reflexivity | lia] |].
  destruct resp as [| [] [content |]]; simpl; split; (reflexivity || lia).
Qed.

(** [Enter] on a selection, twice.  With a selection reported by the
    selection hook and a range to anchor the popup, the first [Enter] opens
    the popup on the selected text, clears the selection and sends nothing;
    the second [Enter] explores that text: the popup is closed, the concept
    overlay shows the text, and at most one request is sent.  With no
    selection and no popup [Enter] is the [right] arrow. *)
Theorem enter_explores_selection
    (rect : Rect) (range : option Rect) (resp resp' : ExploreResponse)
    (now : Z) (v : FeedView) :
  hasSelection (view_selectedText v) = true ->
  let first := handleEnter (Some rect) resp now v in
  let second := handleEnter range resp' now (fst first) in
  snd first = []
  /\ popup_isOpen (selectionPopup (fst first)) = true
  /\ popup_text (selectionPopup (fst first)) = view_selectedText v
  /\ view_selectedText (fst first) = ""
  /\ view_feed (fst first) = view_feed v
  /\ popup_isOpen (selectionPopup (fst second)) = false
  /\ currentConcept (state (view_feed (fst second))) = Some (view_selectedText v)
  /\ conceptOverlayOpen (state (view_feed (fst second))) = true
  /\ (length (snd second) <= 1)%nat.
Proof.
  intros Hsel first second.
  assert (Htruthy : JS.truthyStr (Some (view_selectedText v)) = true).
  { unfold hasSelection, JS.strlen in Hsel. simpl.
    destruct (view_selectedText v); [discriminate Hsel | reflexivity]. }
  assert (Hfirst : first =
    (clearSelection
       (with_selectionPopup
          {| popup_isOpen := true; popup_text := view_selectedText v;
             popup_position :=
               ((rect_left rect + rect_width rect / 2)%Q,
                (rect_bottom rect + 10)%Q) |} v), [])).
  { subst first. unfold handleEnter. now rewrite Hsel, Htruthy. }
  assert (Hsecond : second =
    (let '(f, reqs) := exploreConcept (view_selectedText v) resp' (view_feed v) in
     (with_selectionPopup closedPopup (with_view_feed f (fst first)), reqs))).
  { subst second. rewrite Hfirst. reflexivity. }
  destruct (exploreConcept_shows (view_selectedText v) resp' (view_feed v))
    as [Hshown Hreqs].
  rewrite Hsecond, Hfirst.
  destruct (exploreConcept (view_selectedText v) resp' (view_feed v)) as [f reqs].
  simpl in *. unfold conceptOverlayOpen. rewrite Hshown.
  repeat split; assumption.
Qed.

Lemma enter_explores_selection_witness :
  currentConcept
    (state (view_feed
              (fst (handleEnter None NetworkError 0
                      (fst (handleEnter
                              (Some {| rect_left := 10; rect_width := 40;
                                       rect_bottom := 200 |})
                              NetworkError 0
                              {| view_feed := feed3;
                                 view_selectedText :=
                                   handleSelectionChange (Some (false, " butyrate "));
                                 selectionPopup := closedPopup;
                                 questionState := closedQuestion |}))))))
  = Some "butyrate".
Proof.
  apply (enter_explores_selection
           {| rect_left := 10; rect_width := 40; rect_bottom := 200 |}
           None NetworkError NetworkError 0
           {| view_feed := feed3;
              view_selectedText := handleSelectionChange (Some (false, " butyrate "));
              selectionPopup := closedPopup;
              questionState := closedQuestion |}).
  reflexivity.
Defined.

(** Keys typed into an input or a text area, and keys other than the four
    arrows, [Enter] and [Escape], do nothing to the feed; [Enter] with no
    selection and no popup is the [right] arrow; no arrow key sends a
    request. *)
Theorem handleKeyDown_scope
    (key : Key) (range : option Rect) (resp : ExploreResponse) (now : Z)
    (v : FeedView) :
  handleKeyDown true true key range resp now v = (v, [])
  /\ (forall name, handleKeyDown true false (OtherKey name) range resp now v = (v, []))
  /\ (hasSelection (view_selectedText v) = false ->
      popup_isOpen (selectionPopup v) = false ->
      handleKeyDown true false Enter range resp now v
      = handleKeyDown true false ArrowRight range resp now v)
  /\ (key = ArrowUp \/ key = ArrowDown \/ key = ArrowLeft \/ key = ArrowRight ->
      snd (handleKeyDown true false key range resp now v) = []).
Proof.
  split; [reflexivity |]. split; [reflexivity |]. split.
  - intros Hsel Hpopup. unfold handleKeyDown, handleEnter.
    now rewrite Hsel, Hpopup.
  - intros [-> | [-> | [-> | ->]]]; reflexivity.
Qed.

(** * The topics route *)

Lemma dedupeFrom_spec (seen : gset string) (results : list ValyuResult) :
  NoDup (resultKey <$> dedupeFrom seen results)
  /\ dedupeFrom seen results `sublist_of` results
  /\ (forall k, k ∈ (resultKey <$> dedupeFrom seen results) -> k ∉ seen)
  /\ (forall r, r ∈ results ->
        resultKey r ∈ seen \/ resultKey r ∈ (resultKey <$> dedupeFrom seen results)).
Proof.
  revert seen. induction results as [| r rest IH]; intros seen.
  - simpl. split; [constructor |]. split; [constructor |]. split; set_solver.
  - simpl. case_bool_decide as Hseen.
    + destruct (IH seen) as (Hnd & Hsub & Hfresh & Hall).
      split; [exact Hnd |]. split; [now apply sublist_cons |].
      split; [exact Hfresh |].
      intros x Hx. apply elem_of_cons in Hx as [-> | Hx]; [now left | now apply Hall].
    + destruct (IH ({[resultKey r]} ∪ seen)) as (Hnd & Hsub & Hfresh & Hall).
      split; [| split; [| split]].
      * rewrite fmap_cons. constructor; [| exact Hnd].
        intros Hin. apply Hfresh in Hin. set_solver.
      * now apply sublist_skip.
      * intros k Hk. rewrite fmap_cons in Hk.
        apply elem_of_cons in Hk as [-> | Hk]; [exact Hseen |].
        apply Hfresh in Hk. set_solver.
      * intros x Hx. rewrite fmap_cons.
        apply elem_of_cons in Hx as [-> | Hx]; [right; apply list_elem_of_here |].
        destruct (Hall x Hx) as [Hin | Hin]; [| right; now apply list_elem_of_further].
        apply elem_of_union in Hin as [Hin | Hin]; [| now left].
        apply elem_of_singleton in Hin. right. rewrite Hin. apply list_elem_of_here.
Qed.

Lemma dedupeFrom_idem (seen : gset string) (results : list ValyuResult) :
  dedupeFrom seen (dedupeFrom seen results) = dedupeFrom seen results.
Proof.
  revert seen. induction results as [| r rest IH]; intros seen; [reflexivity |].
  simpl. case_bool_decide as Hseen; [apply IH |].
  simpl. rewrite bool_decide_eq_false_2 by exact Hseen. now rewrite IH.
Qed.

(** A result that is kept has no result of its key before it. *)
Lemma dedupeFrom_first (seen : gset string) (results : list ValyuResult)
    (r : ValyuResult) :
  r ∈ dedupeFrom seen results ->
  exists pre post,
    results = pre ++ r :: post
    /\ (resultKey r ∉ resultKey <$> pre) /\ (resultKey r ∉ seen).
Proof.
  revert seen. induction results as [| x rest IH]; intros seen Hr; simpl in Hr.
  - now apply elem_of_nil in Hr.
  - case_bool_decide as Hseen.
    + destruct (IH seen Hr) as (pre & post & -> & Hpre & Hfresh).
      exists (x :: pre), post. split; [reflexivity |]. split; [| exact Hfresh].
      rewrite fmap_cons. intros Hin.
      apply elem_of_cons in Hin as [Hin | Hin]; [| now apply Hpre].
      apply Hfresh. now rewrite Hin.
    + apply elem_of_cons in Hr as [-> | Hr].
      * exists [], rest. split; [reflexivity |]. split; [| exact Hseen].
        simpl. apply not_elem_of_nil.
      * destruct (IH _ Hr) as (pre & post & -> & Hpre & Hfresh).
        exists (x :: pre), post. split; [reflexivity |]. split; [| set_solver].
        rewrite fmap_cons. intros Hin.
        apply elem_of_cons in Hin as [Hin | Hin]; [| now apply Hpre].
        apply Hfresh. rewrite Hin. set_solver.
Qed.

(** The filter goes through the list once: what it keeps of a list in two
    parts is what it keeps of the first part, then what it keeps of the
    second with the keys of the first part seen. *)
Lemma dedupeFrom_app (seen : gset string) (l1 l2 : list ValyuResult) :
  dedupeFrom seen (l1 ++ l2)
  = dedupeFrom seen l1
    ++ dedupeFrom (list_to_set (resultKey <$> l1) ∪ seen) l2.
Proof.
  revert seen. induction l1 as [| x rest IH]; intros seen; simpl.
  - f_equal. set_solver.
  - case_bool_decide as Hseen.
    + rewrite IH. do 2 f_equal. set_solver.
    + rewrite IH. simpl. do 3 f_equal. set_solver.
Qed.

(** The route keeps one result for each title key (the first 50 characters
    of the lower-cased title), the first in the list: the results it keeps
    are in their order of arrival with pairwise different keys, every key
    that came in is still there, the first result is always kept, and
    filtering again changes nothing.  A result that is kept has no result of
    its key before it in the input.  The result at any position of the input
    is kept exactly when no earlier result has its key; before it comes what
    the filter keeps of the earlier results alone, after it only later
    results. *)
Theorem dedupeByTitle_keeps_first (results : list ValyuResult) :
  NoDup (resultKey <$> dedupeByTitle results)
  /\ dedupeByTitle results `sublist_of` results
  /\ (forall r, r ∈ results -> resultKey r ∈ (resultKey <$> dedupeByTitle results))
  /\ head (dedupeByTitle results) = head results
  /\ dedupeByTitle (dedupeByTitle results) = dedupeByTitle results
  /\ (forall r, r ∈ dedupeByTitle results ->
        exists pre post,
          results = pre ++ r :: post /\ (resultKey r ∉ resultKey <$> pre))
  /\ (forall pre r post, results = pre ++ r :: post ->
        exists later,
          later `sublist_of` post
          /\ dedupeByTitle results
             = dedupeByTitle pre
               ++ (if bool_decide (resultKey r ∈ resultKey <$> pre)
                   then [] else [r])
               ++ later).
Proof.
  unfold dedupeByTitle.
  destruct (dedupeFrom_spec ∅ results) as (Hnd & Hsub & _ & Hall).
  split; [exact Hnd |]. split; [exact Hsub |].
  split; [| split; [| split; [| split]]].
  - intros r Hr. destruct (Hall r Hr) as [Hin | Hin]; [set_solver | exact Hin].
  - destruct results as [| r rest]; [reflexivity |]. simpl.
    now rewrite bool_decide_eq_false_2 by set_solver.
  - apply dedupeFrom_idem.
  - intros r Hr. destruct (dedupeFrom_first _ _ _ Hr) as (pre & post & E & Hpre & _).
    now exists pre, post.
  - intros pre r post ->. rewrite dedupeFrom_app. simpl.
    case_bool_decide as Hseen.
    + rewrite bool_decide_eq_true_2 by set_solver.
      eexists. split; [| reflexivity].
      apply (dedupeFrom_spec _ post).
    + rewrite bool_decide_eq_false_2 by set_solver.
      eexists. split; [| reflexivity].
      apply (dedupeFrom_spec _ post).
Qed.

(** Results whose keys are already pairwise different all pass. *)
Theorem dedupeByTitle_distinct (results : list ValyuResult) :
  NoDup (resultKey <$> results) -> dedupeByTitle results = results.
Proof.
  unfold dedupeByTitle.
  assert (H : forall seen : gset string,
            NoDup (resultKey <$> results) ->
            (forall r, r ∈ results -> resultKey r ∉ seen) ->
            dedupeFrom seen results = results).
  { induction results as [| r rest IH]; intros seen Hnd Hfresh; [reflexivity |].
    simpl. rewrite fmap_cons in Hnd. apply NoDup_cons in Hnd as [Hr Hnd].
    rewrite bool_decide_eq_false_2 by (apply Hfresh, list_elem_of_here).
    f_equal. apply IH; [exact Hnd |].
    intros x Hx Hin. apply elem_of_union in Hin as [Hin | Hin].
    - apply elem_of_singleton in Hin. apply Hr. rewrite <- Hin.
      apply list_elem_of_fmap. now exists x.
    - exact (Hfresh x (list_elem_of_further _ _ _ Hx) Hin). }
  intros Hnd. apply H; [exact Hnd | set_solver].
Qed.

Lemma dedupeByTitle_distinct_witness :
  dedupeByTitle [sampleResult "Quantum leap" "https://a.example/1";
                 sampleResult "Gut feelings" "https://b.example/2"]
  = [sampleResult "Quantum leap" "https://a.example/1";
     sampleResult "Gut feelings" "https://b.example/2"].
Proof.
  apply dedupeByTitle_distinct. vm_compute.
  repeat constructor; set_solver.
Defined.

(** * More on the concept cache and the speculative requests *)

(** An explanation that was fetched is shown again without a request.
    After a call answered with a non-empty explanation, and after any
    events that do not bring an answer for the same key (moves, dismissals,
    pagination, refreshes, other explorations), [exploreConcept] on the same
    text sends nothing and shows what the cache held. *)
Theorem explored_concept_stays_cached
    (concept content : string) (resp : ExploreResponse) (events : list Event)
    (c : Controller) :
  content <> "" ->
  Forall (fun e => cacheKeyWritten e <> Some (normalizeConcept concept)) events ->
  let first :=
    fst (exploreConcept concept (Responded true (Some (JS.JString content))) c) in
  let again := exploreConcept concept resp (run events first) in
  snd again = []
  /\ currentConcept (state (fst again)) = Some concept
  /\ conceptContent (state (fst again))
     = JS.get (conceptCache (state first)) (normalizeConcept concept)
  /\ JS.truthy (conceptContent (state (fst again))) = true
  /\ isExploringConcept (state (fst again)) = false.
Proof.
  intros Hne Hquiet first again.
  destruct (exploreConcept_caches concept content c Hne) as (Htruthy & _ & _).
  fold first in Htruthy.
  assert (Hsame : JS.get (conceptCache (state (run events first))) (normalizeConcept concept)
                  = JS.get (conceptCache (state first)) (normalizeConcept concept)).
  { unfold JS.get. now rewrite (run_conceptCache events first _ Hquiet). }
  subst again. unfold exploreConcept.
  rewrite exploreConcept_start_hit by now rewrite Hsame.
  simpl. rewrite Hsame. repeat split. exact Htruthy.
Qed.

Lemma explored_concept_stays_cached_witness :
  snd (exploreConcept "Butyrate" NetworkError
         (run [EvClear; EvNavigate Down 5; EvLoadMore;
               EvMoreTopics [topicA] (TopicsFailed "offline") 6;
               EvNavigate Up 7]
            (fst (exploreConcept "Butyrate"
                    (Responded true (Some (JS.JString "A short-chain fatty acid.")))
                    feed3))))
  = [].
Proof.
  apply (explored_concept_stays_cached "Butyrate" "A short-chain fatty acid."
           NetworkError
           [EvClear; EvNavigate Down 5; EvLoadMore;
            EvMoreTopics [topicA] (TopicsFailed "offline") 6; EvNavigate Up 7]
           feed3).
  - discriminate.
  - repeat constructor; discriminate.
Defined.

Lemma prefetchKeys_app (l1 l2 : list Request) :
  prefetchKeys (l1 ++ l2) = prefetchKeys l1 ++ prefetchKeys l2.
Proof. apply omap_app. Qed.

Lemma preloadHighlight_trackedConcepts (t : Topic) (S0 : gset string)
    (log : list Request) (hs : list TopicHighlight) (inflight : gset string)
    (reqs : list Request) :
  trackedConcepts S0 inflight (log ++ reqs) ->
  trackedConcepts S0 (fst (foldl (preloadHighlight t) (inflight, reqs) hs))
    (log ++ snd (foldl (preloadHighlight t) (inflight, reqs) hs)).
Proof.
  revert inflight reqs. induction hs as [| h hs IH]; intros inflight reqs Htr;
    [exact Htr |].
  simpl. case_bool_decide as Hin; [now apply IH |].
  apply IH. rewrite app_assoc.
  destruct Htr as (Hnd & HS & Hfresh). unfold trackedConcepts.
  rewrite prefetchKeys_app. simpl (prefetchKeys [_]).
  fold (conceptPreloadKey t h).
  assert (Hnew : conceptPreloadKey t h ∉ prefetchKeys (log ++ reqs)) by set_solver.
  split; [| split].
  - apply NoDup_app. split; [exact Hnd |]. split; [set_solver | apply NoDup_singleton].
  - set_solver.
  - set_solver.
Qed.

Lemma preloadUpcoming_prefetchKeys (tps : list Topic) (idxs : list Z)
    (R : gset string) (reqs : list Request) :
  prefetchKeys (snd (foldl (preloadUpcoming tps) (R, reqs) idxs)) = prefetchKeys reqs.
Proof.
  revert R reqs. induction idxs as [| i idxs IH]; intros R reqs; [reflexivity |].
  simpl. destruct (at_index tps i) as [t |]; [| apply IH].
  case_bool_decide; [apply IH |].
  rewrite IH, prefetchKeys_app. simpl. apply app_nil_r.
Qed.

Lemma preloadTopics_trackedConcepts (preloadCount : Z) (c : Controller)
    (S0 : gset string) (log : list Request) :
  trackedConcepts S0 (conceptPreloadRef c) log ->
  trackedConcepts S0 (conceptPreloadRef (fst (preloadTopics preloadCount c)))
    (log ++ snd (preloadTopics preloadCount c)).
Proof.
  intros Htr. unfold preloadTopics.
  assert (Hcur : trackedConcepts S0 (conceptPreloadRef (fst (preloadCurrent c)))
                   (log ++ snd (preloadCurrent c))).
  { unfold preloadCurrent. destruct (currentTopic (state c)) as [t |];
      [| simpl; now rewrite app_nil_r].
    case_bool_decide; [simpl; now rewrite app_nil_r |].
    pose proof (preloadHighlight_trackedConcepts t S0 log (topic_highlights t)
                  (conceptPreloadRef c) [buildExpandUrl t]) as Hfold.
    simpl conceptPreloadRef.
    destruct (foldl _ _ _) as [inflight reqs]. simpl in *. apply Hfold.
    destruct Htr as (Hnd & HS & Hfresh). unfold trackedConcepts.
    rewrite prefetchKeys_app. simpl. rewrite app_nil_r. auto. }
  destruct (preloadCurrent c) as [c1 reqs]. simpl in Hcur.
  pose proof (preloadUpcoming_prefetchKeys (topics (state c))
                (upcomingIndices preloadCount (state c)) (preloadedRef c1) reqs)
    as Hkeys.
  destruct (foldl _ _ _) as [requested reqs']. simpl in *.
  destruct Hcur as (Hnd & HS & Hfresh). unfold trackedConcepts.
  rewrite prefetchKeys_app, Hkeys. rewrite prefetchKeys_app in Hnd, HS, Hfresh. auto.
Qed.

(** No speculative concept request is sent twice.  Over a session, whatever
    the states the prefetch effect runs on, the concept requests of
    [preloadTopics] carry pairwise different in-flight keys
    [topicId:text], none of which was in the in-flight set at the start;
    and every one of them is for a highlight of the topic that was current
    when it was sent. *)
Theorem concept_prefetch_once
    (preloadCount : Z) (sts : list TopicFeedState) (c : Controller) :
  NoDup (prefetchKeys (snd (preloadSession preloadCount sts c)))
  /\ (forall k, k ∈ prefetchKeys (snd (preloadSession preloadCount sts c)) ->
        (k ∉ conceptPreloadRef c)
        /\ k ∈ conceptPreloadRef (fst (preloadSession preloadCount sts c)))
  /\ (forall concept topicId context,
        PostExplore concept topicId context ∈ snd (preloadTopics preloadCount c) ->
        exists t h,
          currentTopic (state c) = Some t /\ h ∈ topic_highlights t
          /\ concept = hl_text h /\ topicId = Some (topic_id t)
          /\ context = Some (topic_content t)).
Proof.
  assert (Hsession : forall (l : list TopicFeedState) (c0 : Controller)
            (S0 : gset string) (log : list Request),
            trackedConcepts S0 (conceptPreloadRef c0) log ->
            trackedConcepts S0
              (conceptPreloadRef (fst (preloadSession preloadCount l c0)))
              (log ++ snd (preloadSession preloadCount l c0))).
  { induction l as [| st l IH]; intros c0 S0 log Htr.
    - simpl. now rewrite app_nil_r.
    - simpl.
      pose proof (preloadTopics_trackedConcepts preloadCount
                    (setState (fun _ => st) c0) S0 log Htr) as Hstep.
      destruct (preloadTopics _ _) as [c1 reqs]. simpl in Hstep.
      specialize (IH c1 _ _ Hstep).
      destruct (preloadSession _ _ c1) as [c2 reqs']. simpl in *.
      now rewrite app_assoc. }
  assert (Hrefl : trackedConcepts (conceptPreloadRef c) (conceptPreloadRef c) []).
  { unfold trackedConcepts. simpl. split; [constructor | split; set_solver]. }
  destruct (Hsession sts c _ [] Hrefl) as (Hnd & HS & Hfresh). simpl in *.
  split; [exact Hnd |]. split.
  - intros k Hk. split; [now apply Hfresh | set_solver].
  - intros concept topicId context Hr. unfold preloadTopics in Hr.
    pose proof (preloadCurrent_requests c (PostExplore concept topicId context)) as Hcur.
    destruct (preloadCurrent c) as [c1 reqs]. simpl in *.
    pose proof (preloadUpcoming_requests (topics (state c))
                  (upcomingIndices preloadCount (state c)) (preloadedRef c1) reqs
                  (PostExplore concept topicId context)) as Hup.
    destruct (foldl _ _ _) as [requested reqs']. simpl in *.
    destruct (Hup Hr) as [Hold | (i & t & _ & _ & Heq & _)]; [| discriminate Heq].
    destruct (Hcur Hold) as (t & Hat & _ & [Heq | (h & Hh & Heq)]);
      [discriminate Heq |].
    injection Heq as -> -> ->. now exists t, h.
Qed.

(** * Restart after a fetch, and the deep dive behind the prefetch *)

(** A restored feed is labelled live.  After a first fetch that brought at
    least one topic, with a storage that works, a controller mounted within
    the hour shows that batch at the first topic and sends no request; its
    [mode] is [Live] whatever mode the service had reported. *)
Theorem reload_after_fetch
    (batch : list Topic) (m : option Mode) (h : option bool)
    (now now' now'' now''' : Z) (resp : TopicsResponse) (sto : Storage) :
  storage_denied sto = false -> storage_full sto = false ->
  storage_item sto = None ->
  batch <> [] ->
  now'' - now' <= oneHour ->
  let loaded := fetchTopics false now (TopicsOk batch m h) now' (mount sto) in
  let reloaded :=
    fetchTopics false now'' resp now''' (mount (localStorage (fst loaded))) in
  snd loaded = [GetTopics]
  /\ mode (state (fst loaded)) = default Demo m
  /\ snd reloaded = []
  /\ topics (state (fst reloaded)) = batch
  /\ currentIndex (state (fst reloaded)) = 0
  /\ mode (state (fst reloaded)) = Live.
Proof.
  intros Hd Hf Hitem Hbatch Hage loaded reloaded.
  assert (Hloaded : loaded =
    fetchTopics true now (TopicsOk batch m h) now' (mount sto)).
  { subst loaded. rewrite fetchTopics_nothing_saved; simpl.
    - unfold loadFromStorage. rewrite Hd, Hitem. simpl. now destruct sto.
    - reflexivity.
    - unfold loadFromStorage. now rewrite Hd, Hitem. }
  assert (Hsto : localStorage (fst loaded) = saveToStorage batch 0 now' sto).
  { rewrite Hloaded. reflexivity. }
  split; [rewrite Hloaded; reflexivity |].
  split; [rewrite Hloaded; reflexivity |].
  subst reloaded. unfold fetchTopics at 1 2 3 4. simpl.
  rewrite Hsto, (storage_round_trip _ _ _ _ _ Hd Hf Hage).
  destruct (Z.gtb_spec (len batch) 0) as [_ | Hlen].
  - simpl. repeat split.
  - destruct batch; [contradiction | unfold len in Hlen; simpl in Hlen; lia].
Qed.

Lemma reload_after_fetch_witness :
  mode (state (fst (fetchTopics false 0 (TopicsOk [topicA] (Some Demo) None) 10
                      (mount emptyStorage))))
  = Demo
  /\ mode (state (fst (fetchTopics false 20 (TopicsFailed "offline") 30
                         (mount (localStorage
                                   (fst (fetchTopics false 0
                                           (TopicsOk [topicA] (Some Demo) None) 10
                                           (mount emptyStorage))))))))
     = Live.
Proof.
  destruct (reload_after_fetch [topicA] (Some Demo) None 0 10 20 30
              (TopicsFailed "offline") emptyStorage)
    as (_ & Hmode & _ & _ & _ & Hlive); try reflexivity.
  - discriminate.
  - vm_compute. discriminate.
  - split; [exact Hmode | exact Hlive].
Defined.

Lemma preloadHighlight_keeps (t : Topic) (hs : list TopicHighlight)
    (inflight : gset string) (reqs : list Request) (r : Request) :
  r ∈ reqs -> r ∈ snd (foldl (preloadHighlight t) (inflight, reqs) hs).
Proof.
  revert inflight reqs. induction hs as [| h hs IH]; intros inflight reqs Hr;
    [exact Hr |].
  simpl. case_bool_decide; apply IH; [exact Hr | set_solver].
Qed.

Lemma preloadUpcoming_keeps (tps : list Topic) (idxs : list Z)
    (R : gset string) (reqs : list Request) (r : Request) :
  r ∈ reqs -> r ∈ snd (foldl (preloadUpcoming tps) (R, reqs) idxs).
Proof.
  revert R reqs. induction idxs as [| i idxs IH]; intros R reqs Hr; [exact Hr |].
  simpl. destruct (at_index tps i); [| now apply IH].
  case_bool_decide; apply IH; [exact Hr | set_solver].
Qed.

(** The prefetch of a deep dive does not spare the request on demand.
    [preloadTopics] sends the deep-dive request of a current topic that is
    not in the already-requested set, and stores nothing of its answer; when
    the user then goes deeper, the same request is sent again. *)
Theorem prefetched_deep_dive_is_asked_again
    (preloadCount now : Z) (resp : ExploreResponse) (t : Topic) (c : Controller) :
  currentTopic (state c) = Some t ->
  topic_id t ∉ preloadedRef c ->
  depth (state c) = Summary ->
  JS.truthy (JS.get (expandedContent (state c)) (topic_id t)) = false ->
  List.find (fun u => String.eqb (topic_id u) (topic_id t)) (topics (state c))
  = Some t ->
  let warmed := preloadTopics preloadCount c in
  buildExpandUrl t ∈ snd warmed
  /\ expandedContent (state (fst warmed)) = expandedContent (state c)
  /\ snd (autoExpand resp (navigate Right now (fst warmed))) = [buildExpandUrl t].
Proof.
  intros Hcur Hnew Hdepth Hmiss Hfind warmed.
  destruct (preloadTopics_only_refs preloadCount c) as (Hstate & _ & _).
  fold warmed in Hstate.
  split; [| split].
  - subst warmed. unfold preloadTopics.
    assert (Hsent : buildExpandUrl t ∈ snd (preloadCurrent c)).
    { unfold preloadCurrent. rewrite Hcur.
      rewrite bool_decide_eq_false_2 by exact Hnew.
      pose proof (preloadHighlight_keeps t (topic_highlights t)
                    (conceptPreloadRef
                       (with_preloadedRef ({[topic_id t]} ∪ preloadedRef c) c))
                    [buildExpandUrl t] (buildExpandUrl t)
                    (list_elem_of_here _ _)) as Hkeep.
      now destruct (foldl _ _ _). }
    destruct (preloadCurrent c) as [c1 reqs]. simpl in Hsent.
    pose proof (preloadUpcoming_keeps (topics (state c))
                  (upcomingIndices preloadCount (state c)) (preloadedRef c1) reqs
                  _ Hsent) as Hkeep.
    now destruct (foldl _ _ _).
  - now rewrite Hstate.
  - pose proof (navigate_right (fst warmed) now) as Hright.
    rewrite Hstate, Hdepth in Hright.
    unfold autoExpand. rewrite Hright. simpl.
    change (currentTopic (with_depth Expanded (state c)))
      with (currentTopic (state c)).
    rewrite Hcur. unfold expandTopic, expandTopic_start. rewrite Hright. simpl.
    rewrite Hmiss, Hfind. now destruct resp as [| [] [v |]].
Qed.

Lemma prefetched_deep_dive_is_asked_again_witness :
  buildExpandUrl topicA ∈ snd (preloadTopics 2 feed3)
  /\ snd (autoExpand NetworkError (navigate Right 0 (fst (preloadTopics 2 feed3))))
     = [buildExpandUrl topicA].
Proof.
  destruct (prefetched_deep_dive_is_asked_again 2 0 NetworkError topicA feed3)
    as (Hsent & _ & Hagain); try reflexivity.
  - vm_compute. set_solver.
  - split; [exact Hsent | exact Hagain].
Defined.
